(** * The harmony codec: tokenizer, renderer and streamable parser

    A shallow embedding of the C++ sources [src/tiktoken.cpp],
    [src/registry.cpp], [src/tiktoken_ext.cpp], [src/chat.cpp],
    [src/encoding.cpp] and [src/utils.cpp], with the properties the
    specification states about them and further properties of the code.

    Conventions of the embedding.
    - [std::string] and [std::vector<uint8_t>] are both byte sequences; the
      source converts between them byte by byte, so both are [string] here
      (a list of 8-bit [ascii] values, not necessarily valid UTF-8).
    - [Rank] is [uint32_t]; no arithmetic is done on ranks, so they are [Z].
    - [std::unordered_map] is a [gmap] where the source only looks keys up.
      The special-token table is also iterated, in an order the C++ standard
      leaves open; it is kept as the list of its entries in iteration order.
    - A C++ exception is the [Throw] case of [result]. *)

From Stdlib Require Import ZArith Ascii String Lia.
From Stdlib Require DecimalString.
From stdpp Require Import gmap strings list fin_maps.

Abbreviation Rank := Z.

(** ** Exceptions *)

Inductive error : Type :=
| DecodeKeyError (token : Rank)      (* class DecodeKeyError *)
| DecodeError (message : string)     (* class DecodeError *)
| RuntimeError (message : string)    (* std::runtime_error *)
| InvalidArgument (message : string) (* std::invalid_argument *).

(** The outcome of a call: a value, an exception, or no return at all
    ([Diverges]: a loop of the source that the model bounds by fuel did not
    end within the bound). *)
Inductive result (A : Type) : Type :=
| Ok (a : A)
| Throw (e : error)
| Diverges.
Arguments Ok {A} a.
Arguments Throw {A} e.
Arguments Diverges {A}.

Notation "'let?' x ':=' c1 'in' c2" :=
  (match c1 with
   | Ok x => c2
   | Throw e => Throw e
   | Diverges => Diverges
   end)
  (at level 10, x name, c1 at level 100, c2 at level 200).

(** ** Bytes and strings *)

Definition byte_val (c : ascii) : nat := nat_of_ascii c.

(** [std::string::substr(pos)]: the suffix from [pos] on. *)
Fixpoint substr_from (pos : nat) (s : string) : string :=
  match pos, s with
  | O, _ => s
  | S pos', String _ s' => substr_from pos' s'
  | S _, EmptyString => EmptyString
  end.

(** The first [len] bytes of [s], or all of [s] when it is shorter. *)
Fixpoint first_bytes (len : nat) (s : string) : string :=
  match len, s with
  | O, _ => EmptyString
  | S len', String c s' => String c (first_bytes len' s')
  | S _, EmptyString => EmptyString
  end.

(** [std::string::substr(pos, len)], clipped to the end of the string as
    the C++ function does. *)
Definition substr (pos len : nat) (s : string) : string :=
  first_bytes len (substr_from pos s).

(** The one-byte string of a byte. *)
Definition single (c : ascii) : string := String c EmptyString.

(** ** tiktoken.cpp: the BPE core *)

(** [byte_pair_merge]: every index [i] with [i + 1 < piece.size()] whose
    pair [{piece[i], piece[i+1]}] is in [ranks], with the rank of the pair,
    by increasing [i]. *)
Fixpoint byte_pair_merge_from (i : nat) (ranks : gmap string Rank)
    (piece : string) : list (nat * Rank) :=
  match piece with
  | String a (String b _ as rest) =>
      match ranks !! String a (String b EmptyString) with
      | Some r => (i, r) :: byte_pair_merge_from (S i) ranks rest
      | None => byte_pair_merge_from (S i) ranks rest
      end
  | _ => []
  end.

Definition byte_pair_merge (ranks : gmap string Rank) (piece : string)
    : list (nat * Rank) :=
  byte_pair_merge_from 0 ranks piece.

(** [std::sort] of the merges with the comparison [a.second < b.second].
    The standard leaves the order of merges of equal rank open; the model
    is the insertion sort, which keeps them in their order of position (an
    element moves left only past elements [b] with [a.second < b.second]). *)
Fixpoint insert_merge (m : nat * Rank) (l : list (nat * Rank))
    : list (nat * Rank) :=
  match l with
  | [] => [m]
  | m' :: l' =>
      if (m'.2 <? m.2)%Z then m' :: insert_merge m l' else m :: m' :: l'
  end.

Fixpoint sort_merges (l : list (nat * Rank)) : list (nat * Rank) :=
  match l with
  | [] => []
  | m :: l' => insert_merge m (sort_merges l')
  end.

(** The [parts] a piece starts from: one one-byte vector per byte. *)
Fixpoint byte_parts (piece : string) : list string :=
  match piece with
  | EmptyString => []
  | String c rest => single c :: byte_parts rest
  end.

(** The loop that builds [new_parts]: index [merge_pos] gets [merged],
    index [merge_pos + 1] is skipped, every other part is kept. *)
Fixpoint new_parts_from (i merge_pos : nat) (merged : string)
    (parts : list string) : list string :=
  match parts with
  | [] => []
  | p :: ps =>
      if Nat.eqb i merge_pos then
        merged :: new_parts_from (S i) merge_pos merged ps
      else if Nat.eqb i (merge_pos + 1) then
        new_parts_from (S i) merge_pos merged ps
      else p :: new_parts_from (S i) merge_pos merged ps
  end.

(** "Apply the best merge": guarded by [merge_pos + 1 < parts.size()]. *)
Definition apply_merge (merge_pos : nat) (parts : list string) : list string :=
  if Nat.ltb (merge_pos + 1) (length parts) then
    let merged := (parts !!! merge_pos) +:+ (parts !!! (merge_pos + 1)) in
    new_parts_from 0 merge_pos merged parts
  else parts.

(** The ranks of the single bytes of a piece that are in the vocabulary
    (the branch taken when no pair can be merged). *)
Fixpoint individual_bytes (ranks : gmap string Rank) (piece : string)
    : list Rank :=
  match piece with
  | EmptyString => []
  | String c rest =>
      match ranks !! single c with
      | Some r => r :: individual_bytes ranks rest
      | None => individual_bytes ranks rest
      end
  end.

(** The loop "convert parts to ranks": a part that is a vocabulary entry
    gives its rank, any other part is encoded by [encode_part] (the
    recursive call of [byte_pair_encode]). *)
Fixpoint parts_to_ranks (encode_part : string -> option (list Rank))
    (ranks : gmap string Rank) (parts : list string) : option (list Rank) :=
  match parts with
  | [] => Some []
  | part :: rest =>
      match
        match ranks !! part with
        | Some r => Some [r]
        | None => encode_part part
        end
      with
      | Some here =>
          match parts_to_ranks encode_part ranks rest with
          | Some there => Some (here ++ there)
          | None => None
          end
      | None => None
      end
  end.

(** [byte_pair_encode].  The function calls itself on the parts that are
    not vocabulary entries; [fuel] bounds the depth of these calls and
    [None] means the bound was reached. *)
Fixpoint byte_pair_encode_fuel (fuel : nat) (piece : string)
    (ranks : gmap string Rank) : option (list Rank) :=
  match fuel with
  | O => None
  | S fuel' =>
      if Nat.eqb (String.length piece) 1 then
        match ranks !! piece with
        | Some r => Some [r]
        | None => Some []           (* unknown single byte *)
        end
      else
        let merges := byte_pair_merge ranks piece in
        match sort_merges merges with
        | [] => Some (individual_bytes ranks piece)
        | (merge_pos, _) :: _ =>
            let parts := apply_merge merge_pos (byte_parts piece) in
            parts_to_ranks
              (fun part => byte_pair_encode_fuel fuel' part ranks) ranks parts
        end
  end.

(** Two levels of calls are always enough (lemma
    [byte_pair_encode_fuel_enough] below): a part that is not a vocabulary
    entry is a single byte, and a single byte is answered without a
    further call. *)
Definition byte_pair_encode (piece : string) (ranks : gmap string Rank)
    : list Rank :=
  default [] (byte_pair_encode_fuel 2 piece ranks).

(** ** tiktoken.cpp: class CoreBPE *)

(** [regex_] stands for [regex_tls_]: the function from a text to the
    matches a [std::sregex_iterator] over the main regex yields, in order.
    [sorted_token_bytes_] and [special_regex_tls_] are built by the
    constructor and read by no method; they are left out. *)
Record CoreBPE : Type := {
  encoder_ : gmap string Rank;
  special_tokens_encoder_ : list (string * Rank);
  decoder_ : gmap Rank string;
  special_tokens_decoder_ : gmap Rank string;
  regex_ : string -> list string
}.

(** [\s] of [std::regex] over [char] in the default "C" locale: the six
    characters [std::isspace] accepts. *)
Definition isspace (c : ascii) : bool :=
  let n := byte_val c in
  (Nat.leb 9 n && Nat.leb n 13) || Nat.eqb n 32.

(** The matches of the constructor's fallback regex [\S+|\s+]: the maximal
    runs of characters that are all spaces or all non-spaces.  Every
    character is in one of the two classes, so iteration finds the runs one
    after the other. *)
Fixpoint fallback_regex (text : string) : list string :=
  match text with
  | EmptyString => []
  | String c rest =>
      match fallback_regex rest with
      | run :: runs =>
          match rest with
          | String c' _ =>
              if Bool.eqb (isspace c) (isspace c') then String c run :: runs
              else single c :: run :: runs
          | EmptyString => [single c]
          end
      | [] => [single c]
      end
  end.

(** The constructor.  [special_tokens_encoder] lists the entries of the
    map it is given, in the order iteration visits them.  [main_regex] is
    the outcome of [std::regex main_regex(pattern)]: the matcher of the
    pattern, or [None] when the [std::regex] constructor throws
    [std::regex_error]; the [catch] block then installs the fallback. *)
Definition CoreBPE_new (encoder : gmap string Rank)
    (special_tokens_encoder : list (string * Rank))
    (main_regex : option (string -> list string)) : CoreBPE :=
  {| encoder_ := encoder;
     special_tokens_encoder_ := special_tokens_encoder;
     decoder_ := map_fold (fun bytes rank d => <[rank := bytes]> d) ∅ encoder;
     special_tokens_decoder_ :=
       foldl (fun d e => <[e.2 := e.1]> d) ∅ special_tokens_encoder;
     regex_ := default fallback_regex main_regex |}.

(** [CoreBPE::encode_ordinary] *)
Definition encode_ordinary (bpe : CoreBPE) (text : string) : list Rank :=
  concat ((fun piece => byte_pair_encode piece (encoder_ bpe))
            <$> regex_ bpe text).

(** [CoreBPE::decode_bytes] *)
Fixpoint decode_bytes (bpe : CoreBPE) (tokens : list Rank) : result string :=
  match tokens with
  | [] => Ok EmptyString
  | token :: rest =>
      match decoder_ bpe !! token with
      | Some bytes =>
          let? tail := decode_bytes bpe rest in Ok (bytes +:+ tail)
      | None =>
          match special_tokens_decoder_ bpe !! token with
          | Some bytes =>
              let? tail := decode_bytes bpe rest in Ok (bytes +:+ tail)
          | None => Throw (DecodeKeyError token)
          end
      end
  end.

(** The "basic check" of [decode_utf8]: the loop over the lead bytes. *)
Definition is_continuation (c : ascii) : bool :=
  Nat.eqb (Nat.land (byte_val c) 192) 128.    (* (b & 0xC0) == 0x80 *)

Fixpoint utf8_basic_check (s : string) : bool :=
  match s with
  | EmptyString => true
  | String c rest =>
      let n := byte_val c in
      if Nat.ltb n 128 then utf8_basic_check rest
      else if Nat.eqb (Nat.shiftr n 5) 6 then
        match rest with
        | String c1 rest1 => is_continuation c1 && utf8_basic_check rest1
        | _ => false
        end
      else if Nat.eqb (Nat.shiftr n 4) 14 then
        match rest with
        | String c1 (String c2 rest2) =>
            is_continuation c1 && is_continuation c2 && utf8_basic_check rest2
        | _ => false
        end
      else if Nat.eqb (Nat.shiftr n 3) 30 then
        match rest with
        | String c1 (String c2 (String c3 rest3)) =>
            is_continuation c1 && is_continuation c2 && is_continuation c3
            && utf8_basic_check rest3
        | _ => false
        end
      else false
  end.

(** [CoreBPE::decode_utf8] *)
Definition decode_utf8 (bpe : CoreBPE) (tokens : list Rank) : result string :=
  let? bytes := decode_bytes bpe tokens in
  if utf8_basic_check bytes then Ok bytes
  else Throw (DecodeError "Invalid UTF-8 sequence").

(** [CoreBPE::special_tokens] *)
Definition special_tokens (bpe : CoreBPE) : gset string :=
  list_to_set (special_tokens_encoder_ bpe).*1.

(** [CoreBPE::is_special_token] *)
Definition is_special_token (bpe : CoreBPE) (token : Rank) : bool :=
  bool_decide (is_Some (special_tokens_decoder_ bpe !! token)).

(** The inner [for] loop of [CoreBPE::encode]: the first entry of the
    special-token table, in iteration order, that is allowed (or any entry
    when [allowed_special] is empty) and is found at [pos]. *)
Definition special_at (bpe : CoreBPE) (allowed_special : gset string)
    (remaining_text : string) (pos : nat) : option (string * Rank) :=
  List.find
    (fun e =>
       (bool_decide (e.1 ∈ allowed_special)
        || bool_decide (allowed_special = ∅))
       && String.eqb (substr pos (String.length e.1) remaining_text) e.1)
    (special_tokens_encoder_ bpe).

(** The [while (pos < remaining_text.length())] loop of [CoreBPE::encode];
    the state is [remaining_text], [pos], [result] and
    [last_piece_token_len].  One unit of fuel per iteration. *)
Fixpoint encode_loop (fuel : nat) (bpe : CoreBPE) (allowed_special : gset string)
    (remaining_text : string) (pos : nat) (result : list Rank)
    (last_piece_token_len : nat) : option (string * list Rank * nat) :=
  if negb (Nat.ltb pos (String.length remaining_text)) then
    Some (remaining_text, result, last_piece_token_len)
  else
    match fuel with
    | O => None
    | S fuel' =>
        match special_at bpe allowed_special remaining_text pos with
        | Some (special_token, rank) =>
            let result :=
              if Nat.ltb 0 pos then
                result ++ encode_ordinary bpe (substr 0 pos remaining_text)
              else result in
            encode_loop fuel' bpe allowed_special
              (substr_from (pos + String.length special_token) remaining_text)
              0 (result ++ [rank]) 1
        | None =>
            encode_loop fuel' bpe allowed_special remaining_text (S pos)
              result last_piece_token_len
        end
    end.

(** [CoreBPE::encode], with an explicit bound on the iterations of its
    loop. *)
Definition encode_fuel (fuel : nat) (bpe : CoreBPE) (text : string)
    (allowed_special : gset string) : result (list Rank * nat) :=
  match special_tokens_encoder_ bpe with
  | [] => let tokens := encode_ordinary bpe text in Ok (tokens, length tokens)
  | _ :: _ =>
      match encode_loop fuel bpe allowed_special text 0 [] 0 with
      | None => Diverges
      | Some (remaining_text, result, last_piece_token_len) =>
          if String.eqb remaining_text EmptyString then
            Ok (result, last_piece_token_len)
          else
            let remaining_tokens := encode_ordinary bpe remaining_text in
            Ok (result ++ remaining_tokens, length remaining_tokens)
      end
  end.

(** [CoreBPE::encode].  Every iteration of the loop either advances [pos]
    or cuts a special literal off [remaining_text], so the length of the
    text bounds the iterations whenever no special literal is empty (lemma
    [encode_loop_terminates]). *)
Definition encode (bpe : CoreBPE) (text : string)
    (allowed_special : gset string) : result (list Rank * nat) :=
  encode_fuel (String.length text) bpe text allowed_special.

(** [CoreBPE::encode_with_special_tokens] *)
Definition encode_with_special_tokens (bpe : CoreBPE) (text : string)
    : result (list Rank) :=
  let? r := encode bpe text (special_tokens bpe) in Ok r.1.

(** ** registry.cpp *)

Definition common_pairs : list (string * Rank) :=
  [("th", 256); ("he", 257); ("in", 258); ("er", 259); ("an", 260);
   ("re", 261); ("ed", 262); ("nd", 263); ("on", 264); ("en", 265);
   ("at", 266); ("ou", 267); ("it", 268); ("is", 269); ("or", 270);
   ("ti", 271); ("as", 272); ("te", 273); ("et", 274); ("ng", 275);
   ("of", 276); ("al", 277); ("de", 278); ("se", 279); ("le", 280);
   ("to", 281); ("ar", 282); ("st", 283); ("nt", 284); ("ro", 285);
   ("ne", 286); ("om", 287); ("li", 288); ("la", 289); ("el", 290);
   ("ma", 291); ("ri", 292); ("ic", 293); ("co", 294); ("ca", 295);
   ("tion", 296); ("ing", 297); ("and", 298); ("the", 299); ("for", 300);
   ("are", 301); ("with", 302); ("his", 303); ("they", 304); ("have", 305);
   ("this", 306); ("will", 307); ("you", 308); ("that", 309); ("but", 310);
   ("not", 311); ("what", 312); ("all", 313); ("were", 314); ("can", 315);
   ("had", 316); ("her", 317); ("was", 318); ("one", 319); ("our", 320)]%Z.

(** [create_basic_encoder]: the 256 single bytes, then the pairs, each
    stored with [encoder[bytes] = rank]. *)
Definition create_basic_encoder : gmap string Rank :=
  let encoder :=
    foldl (fun enc i => <[single (ascii_of_nat i) := Z.of_nat i]> enc)
      ∅ (seq 0 256) in
  foldl (fun enc p => <[p.1 := p.2]> enc) encoder common_pairs.

(** [create_harmony_special_tokens]: the entries, in the order of the
    initializer list. *)
Definition create_harmony_special_tokens : list (string * Rank) :=
  [("<|start|>", 200000); ("<|end|>", 200001); ("<|message|>", 200002);
   ("<|channel|>", 200003); ("<|constrain|>", 200004); ("<|call|>", 200005);
   ("<|reasoning|>", 200006); ("<|thinking|>", 200007);
   ("<|analysis|>", 200008); ("<|commentary|>", 200009);
   ("<|final|>", 200010); ("<|system|>", 200011); ("<|user|>", 200012);
   ("<|assistant|>", 200013); ("<|developer|>", 200014);
   ("<|tool|>", 200015)]%Z.

(** The tokenizer [load_harmony_encoding] builds.  Its pattern uses the
    classes [\p{L}], [\p{N}] and possessive quantifiers; the ECMAScript
    grammar of [std::regex] has neither, the [std::regex] constructor throws
    [std::regex_error] on it, and the [catch] block of the [CoreBPE]
    constructor installs the fallback regex: [main_regex] is [None]. *)
Definition harmony_tokenizer : CoreBPE :=
  CoreBPE_new create_basic_encoder create_harmony_special_tokens None.

(** ** tiktoken_ext.cpp *)

(** The characters the C++ literals write with escapes. *)
Definition quote_char : string := String (ascii_of_nat 34) EmptyString.
Definition newline : string := String (ascii_of_nat 10) EmptyString.
Definition tab_char : string := String (ascii_of_nat 9) EmptyString.
Definition carriage_return : string := String (ascii_of_nat 13) EmptyString.

(** The table [bpe_merges] of [TiktokenExt::load_o200k_harmony], in the
    order of the initializer list.  Some entries are single bytes and some
    byte strings occur twice; they are stored with [encoder[bytes] = rank]
    after the 256 single bytes, so a later entry replaces an earlier one. *)
Definition bpe_merges : list (string * Rank) :=
  [("th", 256); ("he", 257); ("in", 258); ("er", 259); ("an", 260);
   ("re", 261); ("ed", 262); ("nd", 263); ("on", 264); ("en", 265);
   ("at", 266); ("ou", 267); ("it", 268); ("is", 269); ("or", 270);
   ("ti", 271); ("as", 272); ("te", 273); ("et", 274); ("ng", 275);
   ("of", 276); ("al", 277); ("de", 278); ("se", 279); ("le", 280);
   ("to", 281); ("ar", 282); ("st", 283); ("nt", 284); ("ro", 285);
   ("ne", 286); ("om", 287); ("li", 288); ("la", 289); ("el", 290);
   ("ma", 291); ("ri", 292); ("ic", 293); ("co", 294); ("ca", 295);
   ("the", 296); ("and", 297); ("ing", 298); ("ion", 299); ("tio", 300);
   ("ent", 301); ("ati", 302); ("for", 303); ("her", 304); ("ter", 305);
   ("hat", 306); ("tha", 307); ("ere", 308); ("ate", 309); ("his", 310);
   ("con", 311); ("res", 312); ("ver", 313); ("all", 314); ("ons", 315);
   ("nce", 316); ("men", 317); ("ive", 318); ("ted", 319); ("com", 320);
   ("that", 321); ("with", 322); ("have", 323); ("this", 324); ("will", 325);
   ("your", 326); ("from", 327); ("they", 328); ("know", 329); ("want", 330);
   ("been", 331); ("good", 332); ("much", 333); ("some", 334); ("time", 335);
   ("very", 336); ("when", 337); ("come", 338); ("here", 339); ("just", 340);
   ("like", 341); ("long", 342); ("make", 343); ("many", 344); ("over", 345);
   ("such", 346); ("take", 347); ("than", 348); ("them", 349); ("well", 350);
   ("were", 351); ("what", 352); ("year", 353); ("work", 354); ("world", 355);
   ("def", 356); ("class", 357); ("import", 358); ("from", 359);
   ("return", 360); ("if", 361); ("else", 362); ("elif", 363); ("for", 364);
   ("while", 365); ("try", 366); ("except", 367); ("finally", 368);
   ("with", 369); ("as", 370); ("pass", 371); ("break", 372);
   ("continue", 373); ("lambda", 374); ("yield", 375); ("async", 376);
   ("await", 377); ("global", 378); ("nonlocal", 379); ("assert", 380);
   ("{", 381); ("}", 382); ("[", 383); ("]", 384); (":", 385);
   (",", 386); (quote_char, 387); ("'", 388); ("<", 389); (">", 390);
   ("</", 391); ("/>", 392); ("<!--", 393); ("-->", 394); ("&", 395);
   ("+", 396); ("-", 397); ("*", 398); ("/", 399); ("=", 400);
   ("==", 401); ("!=", 402); ("<=", 403); (">=", 404); ("&&", 405);
   ("||", 406); ("++", 407); ("--", 408); ("+=", 409); ("-=", 410);
   ("  ", 411); ("   ", 412); ("    ", 413); (newline, 414);
   (newline +:+ newline, 415); (tab_char, 416);
   (carriage_return +:+ newline, 417); (" " +:+ newline, 418);
   (newline +:+ " ", 419); ("  " +:+ newline, 420)]%Z.

Definition o200k_encoder : gmap string Rank :=
  let encoder :=
    foldl (fun enc i => <[single (ascii_of_nat i) := Z.of_nat i]> enc)
      ∅ (seq 0 256) in
  foldl (fun enc p => <[p.1 := p.2]> enc) encoder bpe_merges.

Definition o200k_special_tokens : list (string * Rank) :=
  [("<|start|>", 200000); ("<|end|>", 200001); ("<|message|>", 200002);
   ("<|channel|>", 200003); ("<|constrain|>", 200004); ("<|call|>", 200005);
   ("<|reasoning|>", 200006); ("<|thinking|>", 200007);
   ("<|analysis|>", 200008); ("<|commentary|>", 200009);
   ("<|final|>", 200010); ("<|system|>", 200011); ("<|user|>", 200012);
   ("<|assistant|>", 200013); ("<|developer|>", 200014);
   ("<|tool|>", 200015); ("<|im_start|>", 200016); ("<|im_end|>", 200017);
   ("<|endoftext|>", 200018); ("<|startoftext|>", 200019)]%Z.

(** [TiktokenExt::load_o200k_harmony].  Its pattern starts with the group
    [(?i:...)] and uses [\p{L}]; [std::regex] rejects it as it rejects the
    registry's, so this tokenizer too runs on the fallback regex. *)
Definition load_o200k_harmony : CoreBPE :=
  CoreBPE_new o200k_encoder o200k_special_tokens None.

(** [enum class Encoding { O200kHarmony }]: a scoped enumeration, so its
    values are those of [int]; [O200kHarmony] is 0, and a cast such as
    [static_cast<Encoding>(999)] gives a value that is no enumerator. *)
Definition Encoding : Type := Z.
Definition O200kHarmony : Encoding := 0%Z.

(** [std::to_string] of an [int]: its decimal digits, after a minus sign
    when it is negative. *)
Definition to_string (value : Z) : string :=
  DecimalString.NilZero.string_of_int (Z.to_int value).

(** [TiktokenExt::load_encoding] *)
Definition load_encoding (encoding : Encoding) : result CoreBPE :=
  if Z.eqb encoding O200kHarmony then Ok load_o200k_harmony
  else Throw (InvalidArgument ("Unknown encoding: " +:+ to_string encoding)).

(** [TiktokenExt::get_encoding_name] *)
Definition get_encoding_name (encoding : Encoding) : result string :=
  if Z.eqb encoding O200kHarmony then Ok "o200k_harmony"
  else Throw (InvalidArgument "Unknown encoding").

(** ** utils.cpp *)

(** [std::string::find(needle)] on [s]: the least position at which
    [needle] occurs, [None] for [npos]. *)
Fixpoint find_in (needle s : string) : option nat :=
  if String.prefix needle s then Some 0
  else match s with
       | EmptyString => None
       | String _ rest => S <$> find_in needle rest
       end.

(** [str.find(needle, pos)]: the least position from [pos] on; [npos] also
    when [pos] is beyond the end. *)
Definition find (str needle : string) (pos : nat) : option nat :=
  if Nat.ltb (String.length str) pos then None
  else Nat.add pos <$> find_in needle (substr_from pos str).

(** The [while] loop of [split_string]; [end_] is [None] for [npos]. *)
Fixpoint split_loop (fuel : nat) (str delimiter : string) (start : nat)
    (end_ : option nat) (result : list string) : option (list string) :=
  match end_ with
  | None => Some (result ++ [substr_from start str])
  | Some e =>
      match fuel with
      | O => None
      | S fuel' =>
          let result := result ++ [substr start (e - start) str] in
          let start := e + String.length delimiter in
          split_loop fuel' str delimiter start (find str delimiter start)
            result
      end
  end.

(** [split_string]; the loop is given one iteration per byte of [str] and
    one more. *)
Definition split_string (str delimiter : string) : result (list string) :=
  if String.eqb delimiter EmptyString then Ok [str]
  else
    match split_loop (S (String.length str)) str delimiter 0
            (find str delimiter 0) [] with
    | Some result => Ok result
    | None => Diverges
    end.

(** [join_strings]. *)
Definition join_strings (strings : list string) (delimiter : string) : string :=
  match strings with
  | [] => EmptyString
  | first :: rest =>
      foldl (fun result s => result +:+ (delimiter +:+ s)) first rest
  end.

(** A byte as the integer the source computes with, and the byte a
    conversion to [char] or [uint8_t] keeps of an integer. *)
Definition byte_Z (c : ascii) : Z := Z.of_nat (byte_val c).
Definition Z_byte (z : Z) : ascii := ascii_of_nat (Z.to_nat (z mod 256)%Z).

(** The static [chars] of [base64_encode]. *)
Definition base64_chars : string :=
  "ABCDEFGHIJKLMNOPQRSTUVWXYZabcdefghijklmnopqrstuvwxyz0123456789+/".

(** [chars[k]] for a [uint8_t] index.  The masks of [char_array_4] keep
    every index below 64 (lemma [char_array_4_range]), so the read is always
    inside the table; ['\0'] stands for what is never read. *)
Definition chars_at (k : Z) : ascii :=
  match String.get (Z.to_nat k) base64_chars with
  | Some c => c
  | None => zero
  end.

(** [char_array_3[i] = byte] for [i] in 0..2. *)
Definition store3 (char_array_3 : Z * Z * Z) (i : nat) (byte : Z) : Z * Z * Z :=
  let '(a0, a1, a2) := char_array_3 in
  match i with
  | 0 => (byte, a1, a2)
  | 1 => (a0, byte, a2)
  | _ => (a0, a1, byte)
  end.

(** The four assignments to [char_array_4], each converted to [uint8_t]. *)
Definition char_array_4 (char_array_3 : Z * Z * Z) : list Z :=
  let '(a0, a1, a2) := char_array_3 in
  [Z.shiftr (Z.land a0 0xfc) 2 mod 256;
   (Z.shiftl (Z.land a0 0x03) 4 + Z.shiftr (Z.land a1 0xf0) 4) mod 256;
   (Z.shiftl (Z.land a1 0x0f) 2 + Z.shiftr (Z.land a2 0xc0) 6) mod 256;
   Z.land a2 0x3f mod 256]%Z.

(** [result += chars[char_array_4[j]]] for [j] below [n]. *)
Definition emit (char_array_4 : list Z) (n : nat) : string :=
  string_of_list_ascii (chars_at <$> take n char_array_4).

(** The range-for loop of [base64_encode] from a state [(i, char_array_3,
    result)] on. *)
Fixpoint base64_encode_loop (data : string) (i : nat)
    (char_array_3 : Z * Z * Z) (result : string) : nat * (Z * Z * Z) * string :=
  match data with
  | EmptyString => (i, char_array_3, result)
  | String byte rest =>
      let char_array_3 := store3 char_array_3 i (byte_Z byte) in
      let i := S i in
      if Nat.eqb i 3 then
        base64_encode_loop rest 0 char_array_3
          (result +:+ emit (char_array_4 char_array_3) 4)
      else base64_encode_loop rest i char_array_3 result
  end.

(** [result += '='] while [i++ < 3]. *)
Fixpoint pad (n : nat) : string :=
  match n with
  | O => EmptyString
  | S n' => String "=" (pad n')
  end.

(** What [base64_encode] does after its loop, from the state the loop
    leaves. *)
Definition base64_encode_tail (i : nat) (char_array_3 : Z * Z * Z)
    (result : string) : string :=
  if Nat.eqb i 0 then result
  else
    let '(a0, a1, _) := char_array_3 in
    let char_array_3 := if Nat.eqb i 1 then (a0, 0, 0)%Z else (a0, a1, 0%Z) in
    let result := result +:+ emit (char_array_4 char_array_3) (i + 1) in
    result +:+ pad (3 - i).

(** [base64_encode].  [char_array_3] starts uninitialized in the source;
    every entry is written before it is read, so the zeros it starts with
    here are never seen. *)
Definition base64_encode (data : string) : string :=
  let '(i, char_array_3, result) :=
    base64_encode_loop data 0 (0, 0, 0)%Z EmptyString in
  base64_encode_tail i char_array_3 result.

(** The static table [T] of [base64_decode]. *)
Definition base64_T : list Z :=
  [-1;-1;-1;-1; -1;-1;-1;-1; -1;-1;-1;-1; -1;-1;-1;-1;
   -1;-1;-1;-1; -1;-1;-1;-1; -1;-1;-1;-1; -1;-1;-1;-1;
   -1;-1;-1;-1; -1;-1;-1;-1; -1;-1;-1;62; -1;-1;-1;63;
   52;53;54;55; 56;57;58;59; 60;61;-1;-1; -1;-1;-1;-1;
   -1; 0; 1; 2;  3; 4; 5; 6;  7; 8; 9;10; 11;12;13;14;
   15;16;17;18; 19;20;21;22; 23;24;25;-1; -1;-1;-1;-1;
   -1;26;27;28; 29;30;31;32; 33;34;35;36; 37;38;39;40;
   41;42;43;44; 45;46;47;48; 49;50;51;-1; -1;-1;-1;-1]%Z.

(** A value of type [int]: 32 bits, two's complement.  [val] is never
    masked in the source, so [(val << 6) + T[c]] passes the 32 bits from
    the sixth character on; the model wraps it around. *)
Definition int32 (z : Z) : Z := ((z + 2 ^ 31) mod 2 ^ 32 - 2 ^ 31)%Z.

(** The loop of [base64_decode] from a state [(val, valb, result)] on.
    [None] is a read past the end of [T]: the table has 128 entries and is
    indexed with an [unsigned char]. *)
Fixpoint base64_decode_loop (encoded : string) (val valb : Z)
    (result : string) : option string :=
  match encoded with
  | EmptyString => Some result
  | String c rest =>
      match base64_T !! byte_val c with
      | None => None
      | Some t =>
          if (t =? -1)%Z then Some result
          else
            let val := int32 (Z.shiftl val 6 + t)%Z in
            let valb := (valb + 6)%Z in
            if (0 <=? valb)%Z then
              base64_decode_loop rest val (valb - 8)%Z
                (result +:+ single (Z_byte (Z.land (Z.shiftr val valb) 0xFF%Z)))
            else base64_decode_loop rest val valb result
      end
  end.

(** [base64_decode]. *)
Definition base64_decode (encoded : string) : option string :=
  base64_decode_loop encoded 0%Z (-8)%Z EmptyString.

(** ** chat.hpp: the data model *)

Inductive Role : Type := User | Assistant | System | Developer | Tool.

Inductive ReasoningEffort : Type := Low | Medium | High.

(** [reasoning_effort_to_string] (chat.cpp) *)
Definition reasoning_effort_to_string (effort : ReasoningEffort) : string :=
  match effort with
  | Low => "low"
  | Medium => "medium"
  | High => "high"
  end.

(** ** chat.cpp: role names *)

(** [role_to_string] *)
Definition role_to_string (r : Role) : string :=
  match r with
  | User => "user"
  | Assistant => "assistant"
  | System => "system"
  | Developer => "developer"
  | Tool => "tool"
  end.

(** [string_to_role] *)
Definition string_to_role (str : string) : result Role :=
  if String.eqb str "user" then Ok User
  else if String.eqb str "assistant" then Ok Assistant
  else if String.eqb str "system" then Ok System
  else if String.eqb str "developer" then Ok Developer
  else if String.eqb str "tool" then Ok Tool
  else Throw (InvalidArgument ("Unknown role: " +:+ str)).

Record Author : Type := {
  role : Role;
  name : option string
}.

Record ChannelConfig : Type := {
  valid_channels : list string;
  channel_required : bool
}.

(** The newline character of the C++ literals. *)
Definition nl : string := String (ascii_of_nat 10) EmptyString.

(** [std::ostream << x] for each element of a list, in order. *)
Definition cat (l : list string) : string := foldr String.append EmptyString l.

Section Encoding.

(** [nlohmann::json] values and the text [dump()] gives for them.  The
    renderer only prints tool parameters with [dump()]; nothing below
    depends on what a JSON value is. *)
Variable json : Type.
Variable json_dump : json -> string.

Record ToolDescription : Type := {
  tool_name : string;
  tool_description : string;
  parameters : option json
}.

Record ToolNamespaceConfig : Type := {
  ns_name : string;
  ns_description : option string;
  ns_tools : list ToolDescription
}.

(** The [tools] maps are iterated by the renderer: they are the lists of
    their entries in iteration order. *)
Record SystemContent : Type := {
  model_identity : option string;
  reasoning_effort : option ReasoningEffort;
  tools : option (list (string * ToolNamespaceConfig));
  conversation_start_date : option string;
  knowledge_cutoff : option string;
  channel_config : option ChannelConfig
}.

Record DeveloperContent : Type := {
  instructions : option string;
  dev_tools : option (list (string * ToolNamespaceConfig))
}.

(** [std::variant<TextContent, SystemContent, DeveloperContent>] *)
Inductive Content : Type :=
| TextContent (text : string)
| SystemContentV (c : SystemContent)
| DeveloperContentV (c : DeveloperContent).

Record Message : Type := {
  author : Author;
  recipient : option string;
  content : list Content;
  channel : option string;
  content_type : option string
}.

Record Conversation : Type := {
  messages : list Message
}.

(** ** encoding.hpp / encoding.cpp: class HarmonyEncoding *)

Record RenderConversationConfig : Type := {
  auto_drop_analysis : bool
}.

(** The formatting-token tables of the class are empty in the only
    encoding the registry builds and no method below reads them. *)
Record HarmonyEncoding : Type := {
  name_ : string;
  n_ctx_ : Z;
  max_message_tokens_ : Z;
  max_action_length_ : Z;
  tokenizer_name_ : string;
  tokenizer_ : CoreBPE
}.

(** [load_harmony_encoding(HarmonyEncodingName::HarmonyGptOss)]: what the
    function returns for the one enumerator.  For a value that is no
    enumerator it throws [std::invalid_argument]; every statement below is
    about the encoding it returns. *)
Definition load_harmony_encoding : HarmonyEncoding :=
  {| name_ := "harmony_gpt_oss";
     n_ctx_ := 8192%Z;
     max_message_tokens_ := 4096%Z;
     max_action_length_ := 1024%Z;
     tokenizer_name_ := "o200k_harmony";
     tokenizer_ := harmony_tokenizer |}.

(** [HarmonyEncoding::role_to_special_token] *)
Definition role_to_special_token (r : Role) : string :=
  match r with
  | System => "<|system|>"
  | User => "<|user|>"
  | Assistant => "<|assistant|>"
  | Developer => "<|developer|>"
  | Tool => "<|tool|>"
  end.

(** [HarmonyEncoding::get_special_token] *)
Definition get_special_token (enc : HarmonyEncoding) (token : string)
    : result Rank :=
  let not_found := Throw (RuntimeError ("Special token not found: " +:+ token)) in
  if bool_decide (token ∈ special_tokens (tokenizer_ enc)) then
    let? tokens := encode_with_special_tokens (tokenizer_ enc) token in
    match tokens with
    | first :: _ => Ok first
    | [] => not_found
    end
  else not_found.

(** The text the renderer writes for the namespaces of a [tools] map. *)
Definition tool_text (tool : ToolDescription) : string :=
  cat ["## "; tool_name tool; nl; tool_description tool; nl;
       match parameters tool with
       | Some p => cat ["Parameters: "; json_dump p; nl]
       | None => EmptyString
       end;
       nl].

Definition namespace_text (ns_config : ToolNamespaceConfig) : string :=
  cat ["# "; ns_name ns_config;
       match ns_description ns_config with
       | Some d => nl +:+ d
       | None => EmptyString
       end;
       nl;
       cat (tool_text <$> ns_tools ns_config)].

Definition tools_text (tools : list (string * ToolNamespaceConfig)) : string :=
  cat ((fun e => namespace_text e.2) <$> tools).

(** The [", "]-separated channel names. *)
Fixpoint join_channels (first : bool) (channels : list string) : string :=
  match channels with
  | [] => EmptyString
  | ch :: rest =>
      (if first then ch else ", " +:+ ch) +:+ join_channels false rest
  end.

Definition opt_line (label : string) (value : option string) : string :=
  match value with
  | Some v => cat [label; v; nl]
  | None => EmptyString
  end.

(** The string a [SystemContent] is written to before it is encoded. *)
Definition system_content_text (c : SystemContent) : string :=
  cat [opt_line "Model: " (model_identity c);
       opt_line "Reasoning effort: "
         (reasoning_effort_to_string <$> reasoning_effort c);
       opt_line "Knowledge cutoff: " (knowledge_cutoff c);
       opt_line "Current date: " (conversation_start_date c);
       match tools c with
       | Some t => cat [nl; "Available tools:"; nl; tools_text t]
       | None => EmptyString
       end;
       match channel_config c with
       | Some config =>
           if channel_required config
              && negb (bool_decide (valid_channels config = [])) then
             cat [nl; "Required channels: ";
                  join_channels true (valid_channels config); nl]
           else EmptyString
       | None => EmptyString
       end].

(** The string a [DeveloperContent] is written to. *)
Definition developer_content_text (c : DeveloperContent) : string :=
  cat [match instructions c with
       | Some i => i +:+ nl
       | None => EmptyString
       end;
       match dev_tools c with
       | Some t => cat [nl; "Developer tools:"; nl; tools_text t]
       | None => EmptyString
       end].

(** The tokens of one content item in the body of [render_message]. *)
Definition render_content (enc : HarmonyEncoding) (c : Content) : list Rank :=
  match c with
  | TextContent text => encode_ordinary (tokenizer_ enc) text
  | SystemContentV sc =>
      encode_ordinary (tokenizer_ enc) (system_content_text sc)
  | DeveloperContentV dc =>
      encode_ordinary (tokenizer_ enc) (developer_content_text dc)
  end.

(** [HarmonyEncoding::render_message].  [config] is not read. *)
Definition render_message (enc : HarmonyEncoding) (message : Message)
    (config : option RenderConversationConfig) : result (list Rank) :=
  let? start := get_special_token enc "<|start|>" in
  let? role_token :=
    get_special_token enc (role_to_special_token (role (author message))) in
  let tokens := [start; role_token] in
  let? tokens :=
    match channel message with
    | Some ch =>
        let? t := get_special_token enc "<|channel|>" in
        Ok (tokens ++ [t] ++ encode_ordinary (tokenizer_ enc) ch)
    | None => Ok tokens
    end in
  let tokens :=
    match recipient message with
    | Some rcpt =>
        tokens ++ encode_ordinary (tokenizer_ enc) (" to=" +:+ rcpt)
    | None => tokens
    end in
  let? tokens :=
    match content_type message with
    | Some ct =>
        let? t := get_special_token enc "<|constrain|>" in
        Ok (tokens ++ [t] ++ encode_ordinary (tokenizer_ enc) ct)
    | None => Ok tokens
    end in
  let? message_token := get_special_token enc "<|message|>" in
  let tokens :=
    tokens ++ [message_token]
           ++ concat (render_content enc <$> content message) in
  let? end_token := get_special_token enc "<|end|>" in
  Ok (tokens ++ [end_token]).

(** The loop shared by the two conversation renderers. *)
Fixpoint render_messages (enc : HarmonyEncoding) (msgs : list Message)
    (config : option RenderConversationConfig) : result (list Rank) :=
  match msgs with
  | [] => Ok []
  | message :: rest =>
      let? message_tokens := render_message enc message config in
      let? tokens := render_messages enc rest config in
      Ok (message_tokens ++ tokens)
  end.

(** [HarmonyEncoding::render_conversation] *)
Definition render_conversation (enc : HarmonyEncoding)
    (conversation : Conversation) (config : option RenderConversationConfig)
    : result (list Rank) :=
  render_messages enc (messages conversation) config.

(** [HarmonyEncoding::render_conversation_for_completion] *)
Definition render_conversation_for_completion (enc : HarmonyEncoding)
    (conversation : Conversation) (next_turn_role : Role)
    (config : option RenderConversationConfig) : result (list Rank) :=
  let? tokens := render_messages enc (messages conversation) config in
  let? start := get_special_token enc "<|start|>" in
  let? role_token :=
    get_special_token enc (role_to_special_token next_turn_role) in
  Ok (tokens ++ [start; role_token]).

(** [HarmonyEncoding::render_conversation_for_training]: "for now, same as
    regular render". *)
Definition render_conversation_for_training (enc : HarmonyEncoding)
    (conversation : Conversation) (config : option RenderConversationConfig)
    : result (list Rank) :=
  render_conversation enc conversation config.

Record RenderOptions : Type := {
  conversation_has_function_tools : bool
}.

(** [HarmonyEncoding::render_into]: the "simplified rendering" that appends
    the encoding of each [TextContent] to [into] and passes over the other
    contents.  [render_options] is not read. *)
Definition render_into (enc : HarmonyEncoding) (message : Message)
    (into : list Rank) (render_options : option RenderOptions) : list Rank :=
  into
  ++ concat
       ((fun c =>
           match c with
           | TextContent text => encode_ordinary (tokenizer_ enc) text
           | _ => []
           end) <$> content message).

(** [HarmonyEncoding::render] *)
Definition render (enc : HarmonyEncoding) (message : Message)
    (render_options : option RenderOptions) : list Rank :=
  render_into enc message [] render_options.

(** [HarmonyEncoding::render_conversation_into] *)
Definition render_conversation_into (enc : HarmonyEncoding)
    (conversation : Conversation) (into : list Rank)
    (config : option RenderConversationConfig) : result (list Rank) :=
  let? tokens := render_conversation enc conversation config in
  Ok (into ++ tokens).

(** [HarmonyEncoding::render_conversation_for_completion_into] *)
Definition render_conversation_for_completion_into (enc : HarmonyEncoding)
    (conversation : Conversation) (next_turn_role : Role) (into : list Rank)
    (config : option RenderConversationConfig) : result (list Rank) :=
  let? tokens :=
    render_conversation_for_completion enc conversation next_turn_role config in
  Ok (into ++ tokens).

(** *** The regular expression of [parse_harmony_format]

    [std::regex] is library code; the model is a backtracking matcher for
    the constructs the pattern uses, with the leftmost match and the
    priorities of the ECMAScript grammar (greedy [+] and [?], lazy [*?]). *)

Inductive regex : Type :=
| Lit (s : string)                 (* literal characters *)
| Plus (cls : ascii -> bool)       (* one or more of a class, greedy *)
| LazyStar (cls : ascii -> bool)   (* any number of a class, lazy *)
| Group (n : nat) (r : regex)      (* capture group number n *)
| Optional (r : regex)             (* (?: r )?, greedy *)
| Seq (r1 r2 : regex).

(** A match in progress: the text still to read and the groups captured. *)
Definition captures : Type := gmap nat string.
Definition continuation : Type :=
  string -> captures -> option (string * captures).

(** As many characters of the class as possible, then fewer. *)
Fixpoint greedy_star (cls : ascii -> bool) (s : string)
    (k : string -> option (string * captures)) : option (string * captures) :=
  match s with
  | String c s' =>
      if cls c then
        match greedy_star cls s' k with
        | Some m => Some m
        | None => k s
        end
      else k s
  | EmptyString => k s
  end.

(** As few characters of the class as possible, then more. *)
Fixpoint lazy_star (cls : ascii -> bool) (s : string)
    (k : string -> option (string * captures)) : option (string * captures) :=
  match k s with
  | Some m => Some m
  | None =>
      match s with
      | String c s' => if cls c then lazy_star cls s' k else None
      | EmptyString => None
      end
  end.

(** What was read between the text [s] and its suffix [s']. *)
Definition consumed (s s' : string) : string :=
  substr 0 (String.length s - String.length s') s.

Fixpoint rmatch (r : regex) (s : string) (caps : captures) (k : continuation)
    : option (string * captures) :=
  match r with
  | Lit l =>
      if String.prefix l s then k (substr_from (String.length l) s) caps
      else None
  | Plus cls =>
      match s with
      | String c s' =>
          if cls c then greedy_star cls s' (fun s'' => k s'' caps) else None
      | EmptyString => None
      end
  | LazyStar cls => lazy_star cls s (fun s'' => k s'' caps)
  | Group n r' =>
      rmatch r' s caps (fun s' caps' => k s' (<[n := consumed s s']> caps'))
  | Optional r' =>
      match rmatch r' s caps k with
      | Some m => Some m
      | None => k s caps
      end
  | Seq r1 r2 => rmatch r1 s caps (fun s' caps' => rmatch r2 s' caps' k)
  end.

(** A match that starts at the head of [s]: the rest of the text and the
    groups. *)
Definition match_here (r : regex) (s : string) : option (string * captures) :=
  rmatch r s ∅ (fun s' caps => Some (s', caps)).

(** [std::sregex_iterator]: the successive leftmost matches, each search
    starting where the previous match ended.  [skip] counts the characters
    of the last match that are still to pass.  (A match of the pattern
    below is never empty.) *)
Fixpoint regex_matches (r : regex) (skip : nat) (s : string) : list captures :=
  match skip with
  | S skip' =>
      match s with
      | String _ s' => regex_matches r skip' s'
      | EmptyString => []
      end
  | O =>
      match match_here r s with
      | Some (rest, caps) =>
          caps ::
          match s with
          | String _ s' =>
              regex_matches r (String.length s - String.length rest - 1) s'
          | EmptyString => []
          end
      | None =>
          match s with
          | String _ s' => regex_matches r 0 s'
          | EmptyString => []
          end
      end
  end.

Definition is_char (c d : ascii) : bool := bool_decide (c = d).

(** [[^<]], [\s], [[^<\|]] and [.] (any character but a line end). *)
Definition not_lt (c : ascii) : bool := negb (is_char c "<").
Definition not_lt_bar (c : ascii) : bool :=
  negb (is_char c "<") && negb (is_char c "|").
Definition dot (c : ascii) : bool :=
  negb (Nat.eqb (byte_val c) 10) && negb (Nat.eqb (byte_val c) 13).

(** [<\|start\|>([^<]+)(?:<\|channel\|>([^<]+))?(?:\s+to=([^<\|]+))?]
    [(?:<\|constrain\|>([^<]+))?<\|message\|>(.*?)<\|end\|>] *)
Definition message_regex : regex :=
  Seq (Lit "<|start|>")
 (Seq (Group 1 (Plus not_lt))
 (Seq (Optional (Seq (Lit "<|channel|>") (Group 2 (Plus not_lt))))
 (Seq (Optional (Seq (Plus isspace) (Seq (Lit "to=") (Group 3 (Plus not_lt_bar)))))
 (Seq (Optional (Seq (Lit "<|constrain|>") (Group 4 (Plus not_lt))))
 (Seq (Lit "<|message|>")
 (Seq (Group 5 (LazyStar dot))
      (Lit "<|end|>"))))))).

(** The body of the loop of [parse_harmony_format]: one match, one
    message. *)
Definition message_of_match (m : captures) : Message :=
  let role_str := default EmptyString (m !! 1) in
  let role :=
    if String.eqb role_str "system" then System
    else if String.eqb role_str "user" then User
    else if String.eqb role_str "assistant" then Assistant
    else if String.eqb role_str "developer" then Developer
    else if String.eqb role_str "tool" then Tool
    else User in
  {| author := {| role := role; name := None |};
     recipient := m !! 3;
     content := [TextContent (default EmptyString (m !! 5))];
     channel := m !! 2;
     content_type := m !! 4 |}.

(** [HarmonyEncoding::parse_harmony_format] *)
Definition parse_harmony_format (text : string) : list Message :=
  message_of_match <$> regex_matches message_regex 0 text.

(** [HarmonyEncoding::parse_messages_from_completion_tokens].  The [role]
    argument is not read. *)
Definition parse_messages_from_completion_tokens (enc : HarmonyEncoding)
    (tokens : list Rank) (role : option Role) : result (list Message) :=
  let? text := decode_utf8 (tokenizer_ enc) tokens in
  Ok (parse_harmony_format text).

(** ** encoding.hpp / encoding.cpp: class StreamableParser *)

Inductive StreamState : Type := ExpectStart | Header | Content_.

(** The members the methods read or write, and [next_role_] and
    [undecoded_tokens_], which the constructor sets and nothing updates.
    ([stop_tokens_], [header_tokens_], [current_header_] and
    [content_tokens_] are declared and never used.) *)
Record StreamableParser : Type := {
  encoding_ : HarmonyEncoding;
  next_role_ : option Role;
  tokens_ : list Rank;
  messages_ : list Message;
  state_ : StreamState;
  last_content_delta_ : option string;
  undecoded_tokens_ : list Rank;
  current_content_ : string;
  current_role_ : option Role;
  current_channel_ : option string;
  current_recipient_ : option string;
  current_content_type_ : option string
}.

(** The constructor. *)
Definition StreamableParser_new (encoding : HarmonyEncoding)
    (role : option Role) : StreamableParser :=
  {| encoding_ := encoding;
     next_role_ := role;
     tokens_ := [];
     messages_ := [];
     state_ := ExpectStart;
     last_content_delta_ := None;
     undecoded_tokens_ := [];
     current_content_ := EmptyString;
     current_role_ := None;
     current_channel_ := None;
     current_recipient_ := None;
     current_content_type_ := None |}.

(** [StreamableParser::parse_role_from_token] *)
Definition parse_role_from_token (token : string) : option Role :=
  if String.eqb token "<|system|>" then Some System
  else if String.eqb token "<|user|>" then Some User
  else if String.eqb token "<|assistant|>" then Some Assistant
  else if String.eqb token "<|developer|>" then Some Developer
  else if String.eqb token "<|tool|>" then Some Tool
  else None.

(** [StreamableParser::finalize_current_message] *)
Definition finalize_current_message (p : StreamableParser) : StreamableParser :=
  match current_role_ p with
  | Some r =>
      let message :=
        {| author := {| role := r; name := None |};
           recipient := current_recipient_ p;
           content := [TextContent (current_content_ p)];
           channel := current_channel_ p;
           content_type := current_content_type_ p |} in
      {| encoding_ := encoding_ p;
         next_role_ := next_role_ p;
         tokens_ := tokens_ p;
         messages_ := messages_ p ++ [message];
         state_ := state_ p;
         last_content_delta_ := last_content_delta_ p;
         undecoded_tokens_ := undecoded_tokens_ p;
         current_content_ := EmptyString;
         current_role_ := None;
         current_channel_ := None;
         current_recipient_ := None;
         current_content_type_ := None |}
  | None => p
  end.

Definition set_state (st : StreamState) (p : StreamableParser)
    : StreamableParser :=
  {| encoding_ := encoding_ p;
     next_role_ := next_role_ p;
     tokens_ := tokens_ p;
     messages_ := messages_ p;
     state_ := st;
     last_content_delta_ := last_content_delta_ p;
     undecoded_tokens_ := undecoded_tokens_ p;
     current_content_ := current_content_ p;
     current_role_ := current_role_ p;
     current_channel_ := current_channel_ p;
     current_recipient_ := current_recipient_ p;
     current_content_type_ := current_content_type_ p |}.

Definition push_token (token : Rank) (p : StreamableParser)
    : StreamableParser :=
  {| encoding_ := encoding_ p;
     next_role_ := next_role_ p;
     tokens_ := tokens_ p ++ [token];
     messages_ := messages_ p;
     state_ := state_ p;
     last_content_delta_ := last_content_delta_ p;
     undecoded_tokens_ := undecoded_tokens_ p;
     current_content_ := current_content_ p;
     current_role_ := current_role_ p;
     current_channel_ := current_channel_ p;
     current_recipient_ := current_recipient_ p;
     current_content_type_ := current_content_type_ p |}.

Definition set_current_role (r : option Role) (p : StreamableParser)
    : StreamableParser :=
  {| encoding_ := encoding_ p;
     next_role_ := next_role_ p;
     tokens_ := tokens_ p;
     messages_ := messages_ p;
     state_ := state_ p;
     last_content_delta_ := last_content_delta_ p;
     undecoded_tokens_ := undecoded_tokens_ p;
     current_content_ := current_content_ p;
     current_role_ := r;
     current_channel_ := current_channel_ p;
     current_recipient_ := current_recipient_ p;
     current_content_type_ := current_content_type_ p |}.

(** [current_content_ += token_text; last_content_delta_ = token_text;] *)
Definition append_content (token_text : string) (p : StreamableParser)
    : StreamableParser :=
  {| encoding_ := encoding_ p;
     next_role_ := next_role_ p;
     tokens_ := tokens_ p;
     messages_ := messages_ p;
     state_ := state_ p;
     last_content_delta_ := Some token_text;
     undecoded_tokens_ := undecoded_tokens_ p;
     current_content_ := current_content_ p +:+ token_text;
     current_role_ := current_role_ p;
     current_channel_ := current_channel_ p;
     current_recipient_ := current_recipient_ p;
     current_content_type_ := current_content_type_ p |}.

(** [StreamableParser::process].  When [decode_utf8] throws, the exception
    leaves [process]; the outcome is then the exception (the parser it
    leaves behind has the token stored and is otherwise unchanged). *)
Definition process (p : StreamableParser) (token : Rank)
    : result StreamableParser :=
  let p := push_token token p in
  let? token_text := decode_utf8 (tokenizer_ (encoding_ p)) [token] in
  match state_ p with
  | ExpectStart =>
      if String.eqb token_text "<|start|>" then Ok (set_state Header p)
      else Ok p
  | Header =>
      let p := set_current_role (parse_role_from_token token_text) p in
      if bool_decide (is_Some (current_role_ p)) then Ok (set_state Content_ p)
      else Ok p
  | Content_ =>
      if String.eqb token_text "<|channel|>" then Ok p
      else if String.eqb token_text "<|constrain|>" then Ok p
      else if String.eqb token_text "<|message|>" then Ok p
      else if String.eqb token_text "<|end|>" then
        Ok (set_state ExpectStart (finalize_current_message p))
      else Ok (append_content token_text p)
  end.

(** [StreamableParser::process_eos] *)
Definition process_eos (p : StreamableParser) : StreamableParser :=
  match state_ p with
  | Content_ =>
      if negb (String.eqb (current_content_ p) EmptyString) then
        finalize_current_message p
      else p
  | _ => p
  end.

(** Feeding a list of tokens, one [process] call each. *)
Fixpoint process_all (p : StreamableParser) (tokens : list Rank)
    : result StreamableParser :=
  match tokens with
  | [] => Ok p
  | token :: rest => let? p' := process p token in process_all p' rest
  end.

(** ** Notions of the specification *)

(** [strip_empty]: the conversation without the messages whose content
    list is empty. *)
Definition strip_empty (c : Conversation) : Conversation :=
  {| messages := filter (fun m => content m <> []) (messages c) |}.

(** ** Notions used in the statements and proofs *)

(** The parts whose ranks [byte_pair_encode] returns. *)
Definition bpe_parts (ranks : gmap string Rank) (piece : string) : list string :=
  if Nat.eqb (String.length piece) 1 then [piece]
  else
    match sort_merges (byte_pair_merge ranks piece) with
    | [] => byte_parts piece
    | (merge_pos, _) :: _ => apply_merge merge_pos (byte_parts piece)
    end.

Definition ranks_of (ranks : gmap string Rank) (parts : list string) : list Rank :=
  concat ((fun part => option_list (ranks !! part)) <$> parts).

(** The bytes [decode_bytes] appends for one token. *)
Definition token_bytes (bpe : CoreBPE) (token : Rank) : option string :=
  match decoder_ bpe !! token with
  | Some bytes => Some bytes
  | None => special_tokens_decoder_ bpe !! token
  end.

(** The decoder maps the rank of every vocabulary entry back to it. *)
Definition decoder_inverts (bpe : CoreBPE) : Prop :=
  map_Forall (fun bytes rank => decoder_ bpe !! rank = Some bytes) (encoder_ bpe).

(** Every single byte is a vocabulary entry. *)
Definition has_all_bytes (ranks : gmap string Rank) : Prop :=
  forall c : ascii, is_Some (ranks !! single c).

(** The rank the registry gives the special token of a role. *)
Definition role_rank (r : Role) : Rank :=
  match r with
  | System => 200011
  | User => 200012
  | Assistant => 200013
  | Developer => 200014
  | Tool => 200015
  end%Z.

(** Well-formed UTF-8 (RFC 3629): no overlong form, no surrogate, nothing
    above U+10FFFF, no sequence cut short. *)
Definition in_range (lo hi : nat) (c : ascii) : bool :=
  Nat.leb lo (byte_val c) && Nat.leb (byte_val c) hi.

Fixpoint utf8_valid (s : string) : bool :=
  match s with
  | EmptyString => true
  | String c rest =>
      let n := byte_val c in
      if Nat.ltb n 128 then utf8_valid rest
      else if in_range 194 223 c then
        match rest with
        | String c1 r1 => in_range 128 191 c1 && utf8_valid r1
        | _ => false
        end
      else if in_range 224 239 c then
        match rest with
        | String c1 (String c2 r2) =>
            in_range (if Nat.eqb n 224 then 160 else 128)
                     (if Nat.eqb n 237 then 159 else 191) c1
            && in_range 128 191 c2 && utf8_valid r2
        | _ => false
        end
      else if in_range 240 244 c then
        match rest with
        | String c1 (String c2 (String c3 r3)) =>
            in_range (if Nat.eqb n 240 then 144 else 128)
                     (if Nat.eqb n 244 then 143 else 191) c1
            && in_range 128 191 c2 && in_range 128 191 c3 && utf8_valid r3
        | _ => false
        end
      else false
  end.

(** The delta the parser exposes is absent or well-formed UTF-8. *)
Definition delta_valid (p : StreamableParser) : Prop :=
  match last_content_delta_ p with
  | Some delta => utf8_valid delta = true
  | None => True
  end.

(** All the fields of the message in progress are back to their initial
    values. *)
Definition fields_reset (p : StreamableParser) : Prop :=
  current_content_ p = EmptyString /\ current_role_ p = None
  /\ current_channel_ p = None /\ current_recipient_ p = None
  /\ current_content_type_ p = None.

(** One step of a parser: a [process] call that returns, or
    [process_eos]. *)
Inductive parser_step : StreamableParser -> StreamableParser -> Prop :=
| step_process (p : StreamableParser) (token : Rank) (p' : StreamableParser) :
    process p token = Ok p' -> parser_step p p'
| step_eos (p : StreamableParser) : parser_step p (process_eos p).

(** The tokens between the role token and [<|message|>]. *)
Definition header_tokens (message : Message) : list Rank :=
  match channel message with
  | Some ch => 200003%Z :: encode_ordinary harmony_tokenizer ch
  | None => []
  end
  ++ match recipient message with
     | Some rcpt => encode_ordinary harmony_tokenizer (" to=" +:+ rcpt)
     | None => []
     end
  ++ match content_type message with
     | Some ct => 200004%Z :: encode_ordinary harmony_tokenizer ct
     | None => []
     end.

(** No header field was captured: channel, recipient and content type of
    the message in progress are absent, and so are they, and the author
    name, in every completed message. *)
Definition no_header_fields (p : StreamableParser) : Prop :=
  current_channel_ p = None /\ current_recipient_ p = None
  /\ current_content_type_ p = None
  /\ Forall (fun m => channel m = None /\ recipient m = None
                      /\ content_type m = None /\ name (author m) = None)
       (messages_ p).

(** *** Concrete inputs *)

(** A parser that was just built. *)
Definition fresh_parser : StreamableParser :=
  StreamableParser_new load_harmony_encoding None.

(** The parser after [<|start|><|assistant|><|message|>] and the text
    "Hi". *)
Definition parser_in_content : StreamableParser :=
  {| encoding_ := load_harmony_encoding;
     next_role_ := None;
     tokens_ := [200000; 200013; 200002; 72; 105]%Z;
     messages_ := [];
     state_ := Content_;
     last_content_delta_ := Some "i";
     undecoded_tokens_ := [];
     current_content_ := "Hi";
     current_role_ := Some Assistant;
     current_channel_ := None;
     current_recipient_ := None;
     current_content_type_ := None |}.

(** An assistant message that calls a tool. *)
Definition tool_call_message : Message :=
  {| author := {| role := Assistant; name := None |};
     recipient := Some "get_weather";
     content := [TextContent "{}"];
     channel := None;
     content_type := Some "json" |}.

(** The message of the simplest conversation: a user saying "Hello". *)
Definition hello_message : Message :=
  {| author := {| role := User; name := None |};
     recipient := None;
     content := [TextContent "Hello"];
     channel := None;
     content_type := None |}.

(** No two byte strings of a vocabulary share a rank. *)
Definition injective_vocabulary (encoder : gmap string Rank) : Prop :=
  forall k1 k2 r, encoder !! k1 = Some r -> encoder !! k2 = Some r -> k1 = k2.

(** The special literals of a tokenizer are all non-empty. *)
Definition specials_nonempty (bpe : CoreBPE) : Prop :=
  Forall (fun e => e.1 <> EmptyString) (special_tokens_encoder_ bpe).

(** Every special rank decodes to its literal. *)
Definition specials_decode (bpe : CoreBPE) : Prop :=
  Forall (fun e => token_bytes bpe e.2 = Some e.1) (special_tokens_encoder_ bpe).

(** The text a content item is encoded from in [render_message]. *)
Definition content_text (c : Content) : string :=
  match c with
  | TextContent text => text
  | SystemContentV sc => system_content_text sc
  | DeveloperContentV dc => developer_content_text dc
  end.

(** The harmony text of a message: what the renderer writes, special
    tokens spelled out. *)
Definition message_text (message : Message) : string :=
  cat ["<|start|>"; role_to_special_token (role (author message));
       match channel message with
       | Some ch => "<|channel|>" +:+ ch
       | None => EmptyString
       end;
       match recipient message with
       | Some rcpt => " to=" +:+ rcpt
       | None => EmptyString
       end;
       match content_type message with
       | Some ct => "<|constrain|>" +:+ ct
       | None => EmptyString
       end;
       "<|message|>";
       cat (content_text <$> content message);
       "<|end|>"].

(** The text of a [TextContent], nothing for the other contents. *)
Definition plain_text (c : Content) : string :=
  match c with
  | TextContent text => text
  | _ => EmptyString
  end.


(** All bytes of a string are ASCII (below 128). *)
Fixpoint is_ascii (s : string) : bool :=
  match s with
  | EmptyString => true
  | String c rest => Nat.ltb (byte_val c) 128 && is_ascii rest
  end.

(** A message with a role and one text and nothing else. *)
Definition plain_message (r : Role) (text : string) : Message :=
  {| author := {| role := r; name := None |};
     recipient := None;
     content := [TextContent text];
     channel := None;
     content_type := None |}.

(** Every character of a string is in a class. *)
Fixpoint all_chars (cls : ascii -> bool) (s : string) : bool :=
  match s with
  | EmptyString => true
  | String c rest => cls c && all_chars cls rest
  end.

(** The role [parse_harmony_format] gives a role text: the role of that
    name, [User] for any other text. *)
Definition role_or_user (role_str : string) : Role :=
  match string_to_role role_str with
  | Ok r => r
  | _ => User
  end.

(** The parser [parser_in_content] after the stream "!", [<|end|>],
    [<|start|>], [<|user|>], [<|message|>], "O", "K". *)
Definition parser_after_second_start : StreamableParser :=
  {| encoding_ := load_harmony_encoding;
     next_role_ := None;
     tokens_ := [200000; 200013; 200002; 72; 105; 33; 200001; 200000; 200012;
                 200002; 79; 75]%Z;
     messages_ := [plain_message Assistant "Hi!"];
     state_ := Content_;
     last_content_delta_ := Some "K";
     undecoded_tokens_ := [];
     current_content_ := "OK";
     current_role_ := Some User;
     current_channel_ := None;
     current_recipient_ := None;
     current_content_type_ := None |}.

(** A fresh parser after [<|start|>], [<|assistant|>], [<|channel|>],
    "final", [<|message|>], "Hi", [<|end|>], [<|start|>], [<|user|>]. *)
Definition parser_after_channel_header : StreamableParser :=
  {| encoding_ := load_harmony_encoding;
     next_role_ := None;
     tokens_ := [200000; 200013; 200003; 102; 258; 97; 108; 200002; 72; 105;
                 200001; 200000; 200012]%Z;
     messages_ := [plain_message Assistant "finalHi"];
     state_ := Content_;
     last_content_delta_ := Some "i";
     undecoded_tokens_ := [];
     current_content_ := EmptyString;
     current_role_ := Some User;
     current_channel_ := None;
     current_recipient_ := None;
     current_content_type_ := None |}.

(** *** utils.cpp *)

(** The groups of RFC 4648: four characters for three bytes, and a last
    group of two or three characters and padding for one or two bytes. *)
Fixpoint base64_groups (data : string) : string :=
  match data with
  | EmptyString => EmptyString
  | String a EmptyString =>
      emit (char_array_4 (byte_Z a, 0, 0)%Z) 2 +:+ "=="
  | String a (String b EmptyString) =>
      emit (char_array_4 (byte_Z a, byte_Z b, 0%Z)) 3 +:+ "="
  | String a (String b (String c rest)) =>
      emit (char_array_4 (byte_Z a, byte_Z b, byte_Z c)) 4
      +:+ base64_groups rest
  end.

(** A character of the base64 alphabet: [T] has a value for it. *)
Definition in_alphabet (c : ascii) : bool :=
  match base64_T !! byte_val c with
  | Some t => negb (t =? -1)%Z
  | None => false
  end.

(** The bit operations of [char_array_4] on a byte, as quotients and
    remainders; checked on each of the 256 bytes. *)
Definition byte_bits_ok (a : Z) : bool :=
  ((Z.shiftr (Z.land a 0xfc) 2 =? a / 4)
   && (Z.shiftl (Z.land a 0x03) 4 =? (a mod 4) * 16)
   && (Z.shiftr (Z.land a 0xf0) 4 =? a / 16)
   && (Z.shiftl (Z.land a 0x0f) 2 =? (a mod 16) * 4)
   && (Z.shiftr (Z.land a 0xc0) 6 =? a / 64)
   && (Z.land a 0x3f =? a mod 64)
   && (0 <=? a) && (a <? 256))%Z.

(** * Properties *)

(** ** Strings *)

Lemma append_cons (c : ascii) (s t : string) :
  String c s +:+ t = String c (s +:+ t).
Proof. reflexivity. Qed.

Lemma append_nil_l (s : string) : EmptyString +:+ s = s.
Proof. reflexivity. Qed.

Lemma append_nil_r (s : string) : s +:+ EmptyString = s.
Proof.
  induction s as [|c s IH]; [done |].
  by rewrite append_cons, IH.
Qed.

Lemma append_assoc (a b c : string) : (a +:+ b) +:+ c = a +:+ (b +:+ c).
Proof.
  induction a as [|x a IH]; [done |].
  by rewrite !append_cons, IH.
Qed.

Lemma length_append (a b : string) :
  String.length (a +:+ b) = String.length a + String.length b.
Proof.
  induction a as [|x a IH]; [done |].
  rewrite append_cons. simpl. by rewrite IH.
Qed.

Lemma cat_cons (x : string) (l : list string) : cat (x :: l) = x +:+ cat l.
Proof. reflexivity. Qed.

Lemma cat_app (l1 l2 : list string) : cat (l1 ++ l2) = cat l1 +:+ cat l2.
Proof.
  induction l1 as [|x l1 IH]; [done |].
  by rewrite <- app_comm_cons, !cat_cons, IH, append_assoc.
Qed.

Lemma cat_byte_parts (piece : string) : cat (byte_parts piece) = piece.
Proof.
  induction piece as [|c s IH]; [done |].
  simpl byte_parts. by rewrite cat_cons, IH.
Qed.

Lemma length_byte_parts (piece : string) :
  length (byte_parts piece) = String.length piece.
Proof. induction piece as [|c s IH]; simpl; [done | by rewrite IH]. Qed.

Lemma byte_parts_single (piece part : string) :
  part ∈ byte_parts piece -> String.length part = 1.
Proof.
  induction piece as [|c s IH]; simpl; intros H.
  - by apply elem_of_nil in H.
  - apply elem_of_cons in H as [-> | H]; [done | by apply IH].
Qed.

(** ** The BPE core *)

Lemma length_1_single (s : string) :
  String.length s = 1 -> exists c, s = single c.
Proof.
  destruct s as [|c [|d s]]; simpl; intros H; try discriminate.
  by exists c.
Qed.

Lemma substr_S (k len : nat) (c : ascii) (s : string) :
  substr (S k) len (String c s) = substr k len s.
Proof. reflexivity. Qed.

Lemma byte_pair_merge_from_spec (ranks : gmap string Rank) (piece : string) :
  forall i0 i r,
    (i, r) ∈ byte_pair_merge_from i0 ranks piece ->
    exists k, i = i0 + k /\ ranks !! substr k 2 piece = Some r
              /\ k + 1 < String.length piece.
Proof.
  induction piece as [|a rest IH]; intros i0 i r Hin.
  - by apply elem_of_nil in Hin.
  - destruct rest as [|b rest'].
    + by apply elem_of_nil in Hin.
    + assert (Htail : (i, r) ∈ byte_pair_merge_from (S i0) ranks (String b rest')
                -> exists k, i = i0 + k
                     /\ ranks !! substr k 2 (String a (String b rest')) = Some r
                     /\ k + 1 < String.length (String a (String b rest'))).
      { intros H. destruct (IH _ _ _ H) as (k & -> & Hk & Hlen).
        exists (S k). rewrite substr_S. split; [lia |]. split; [done |].
        simpl in *. lia. }
      simpl in Hin.
      destruct (ranks !! String a (String b EmptyString)) as [r0|] eqn:Hpair.
      * apply elem_of_cons in Hin as [Heq | Hin]; [| by apply Htail].
        injection Heq as -> ->. exists 0. split; [lia |]. split; [exact Hpair |].
        simpl. lia.
      * by apply Htail.
Qed.

Lemma elem_of_insert_merge (x m : nat * Rank) (l : list (nat * Rank)) :
  x ∈ insert_merge m l -> x = m \/ x ∈ l.
Proof.
  induction l as [|m' l IH]; simpl; intros H.
  - apply list_elem_of_singleton in H. by left.
  - destruct (m'.2 <? m.2)%Z.
    + apply elem_of_cons in H as [-> | H].
      * right. by left.
      * destruct (IH H) as [-> | ?]; [by left | right; by right].
    + apply elem_of_cons in H as [-> | H]; [by left | by right].
Qed.

Lemma elem_of_sort_merges (x : nat * Rank) (l : list (nat * Rank)) :
  x ∈ sort_merges l -> x ∈ l.
Proof.
  induction l as [|m l IH]; simpl; intros H; [done |].
  apply elem_of_insert_merge in H as [-> | H]; [by left | right; by apply IH].
Qed.

Lemma new_parts_from_cons (i merge_pos : nat) (merged p : string)
    (ps : list string) :
  new_parts_from i merge_pos merged (p :: ps)
  = if Nat.eqb i merge_pos then
      merged :: new_parts_from (S i) merge_pos merged ps
    else if Nat.eqb i (merge_pos + 1) then
      new_parts_from (S i) merge_pos merged ps
    else p :: new_parts_from (S i) merge_pos merged ps.
Proof. reflexivity. Qed.

Lemma new_parts_from_gt (merge_pos : nat) (merged : string) (parts : list string) :
  forall i, merge_pos + 1 < i -> new_parts_from i merge_pos merged parts = parts.
Proof.
  induction parts as [|p ps IH]; intros i Hi; [done |].
  rewrite new_parts_from_cons.
  destruct (Nat.eqb_spec i merge_pos); [lia |].
  destruct (Nat.eqb_spec i (merge_pos + 1)); [lia |].
  by rewrite IH by lia.
Qed.

Lemma new_parts_from_le (merge_pos : nat) (merged : string) (parts : list string) :
  forall i,
    i <= merge_pos -> merge_pos + 1 - i < length parts ->
    new_parts_from i merge_pos merged parts
    = take (merge_pos - i) parts ++ merged :: drop (merge_pos - i + 2) parts.
Proof.
  induction parts as [|p ps IH]; intros i Hi Hlen; simpl in Hlen; [lia |].
  rewrite new_parts_from_cons.
  destruct (Nat.eqb_spec i merge_pos) as [-> | Hne].
  - replace (merge_pos - merge_pos) with 0 by lia.
    destruct ps as [|q qs]; simpl in Hlen; [lia |].
    rewrite new_parts_from_cons.
    destruct (Nat.eqb_spec (S merge_pos) merge_pos); [lia |].
    destruct (Nat.eqb_spec (S merge_pos) (merge_pos + 1)); [| lia].
    by rewrite new_parts_from_gt by lia.
  - destruct (Nat.eqb_spec i (merge_pos + 1)); [lia |].
    rewrite IH by lia.
    replace (merge_pos - i) with (S (merge_pos - S i)) by lia.
    done.
Qed.

Lemma apply_merge_eq (merge_pos : nat) (parts : list string) (a b : string) :
  parts !! merge_pos = Some a -> parts !! (merge_pos + 1) = Some b ->
  apply_merge merge_pos parts
  = take merge_pos parts ++ (a +:+ b) :: drop (merge_pos + 2) parts.
Proof.
  intros Ha Hb. unfold apply_merge.
  assert (merge_pos + 1 < length parts) as Hlen by (by eapply lookup_lt_Some).
  destruct (Nat.ltb_spec (merge_pos + 1) (length parts)); [| lia].
  rewrite new_parts_from_le by lia.
  rewrite Nat.sub_0_r.
  by rewrite (list_lookup_total_correct _ _ _ Ha),
             (list_lookup_total_correct _ _ _ Hb).
Qed.

Lemma cat_apply_merge (merge_pos : nat) (parts : list string) :
  cat (apply_merge merge_pos parts) = cat parts.
Proof.
  unfold apply_merge.
  destruct (Nat.ltb_spec (merge_pos + 1) (length parts)) as [Hlen|]; [| done].
  destruct (lookup_lt_is_Some_2 parts merge_pos) as [a Ha]; [lia |].
  destruct (lookup_lt_is_Some_2 parts (merge_pos + 1)) as [b Hb]; [lia |].
  rewrite new_parts_from_le by lia. rewrite Nat.sub_0_r.
  rewrite (list_lookup_total_correct _ _ _ Ha),
          (list_lookup_total_correct _ _ _ Hb).
  rewrite <- (take_drop_middle parts merge_pos a Ha) at 3.
  rewrite !cat_app, !cat_cons. f_equal.
  replace (merge_pos + 1) with (S merge_pos) in Hb by lia.
  rewrite (drop_S _ _ _ Hb) by done.
  rewrite cat_cons, append_assoc.
  by replace (merge_pos + 2) with (S (S merge_pos)) by lia.
Qed.

Lemma byte_parts_pair (piece : string) :
  forall k, k + 1 < String.length piece ->
    exists a b, byte_parts piece !! k = Some (single a)
                /\ byte_parts piece !! (k + 1) = Some (single b)
                /\ substr k 2 piece = String a (String b EmptyString).
Proof.
  induction piece as [|c s IH]; intros k Hk; simpl in Hk; [lia |].
  destruct k as [|k].
  - destruct s as [|d s']; simpl in Hk; [lia |]. by exists c, d.
  - destruct (IH k) as (a & b & Ha & Hb & Hs); [lia |].
    exists a, b. by rewrite substr_S.
Qed.

Lemma cat_bpe_parts (ranks : gmap string Rank) (piece : string) :
  cat (bpe_parts ranks piece) = piece.
Proof.
  unfold bpe_parts. destruct (Nat.eqb _ 1).
  - by rewrite cat_cons, append_nil_r.
  - destruct (sort_merges _) as [|[pos r] ?].
    + apply cat_byte_parts.
    + by rewrite cat_apply_merge, cat_byte_parts.
Qed.

Lemma elem_of_take_list {A} (x : A) (n : nat) (l : list A) :
  x ∈ take n l -> x ∈ l.
Proof. intros H. rewrite <- (take_drop n l). apply elem_of_app. by left. Qed.

Lemma elem_of_drop_list {A} (x : A) (n : nat) (l : list A) :
  x ∈ drop n l -> x ∈ l.
Proof. intros H. rewrite <- (take_drop n l). apply elem_of_app. by right. Qed.

(** A part is a single byte or a pair the vocabulary has. *)
Lemma bpe_parts_cases (ranks : gmap string Rank) (piece part : string) :
  part ∈ bpe_parts ranks piece ->
  String.length part = 1 \/ is_Some (ranks !! part).
Proof.
  unfold bpe_parts. destruct (Nat.eqb_spec (String.length piece) 1) as [H1|H1].
  - intros ->%list_elem_of_singleton. by left.
  - destruct (sort_merges _) as [|[pos r] l] eqn:Hsort.
    + intros H. left. by eapply byte_parts_single.
    + assert ((pos, r) ∈ byte_pair_merge ranks piece) as Hin.
      { apply elem_of_sort_merges. rewrite Hsort. by left. }
      apply byte_pair_merge_from_spec in Hin as (k & -> & Hk & Hlen).
      simpl. destruct (byte_parts_pair piece k Hlen) as (a & b & Ha & Hb & Hs).
      rewrite (apply_merge_eq _ _ _ _ Ha Hb).
      intros [Hin | Hin]%elem_of_app.
      * left. eapply byte_parts_single, elem_of_take_list, Hin.
      * apply elem_of_cons in Hin as [-> | Hin].
        -- right. rewrite Hs in Hk. by exists r.
        -- left. eapply byte_parts_single, elem_of_drop_list, Hin.
Qed.

Lemma individual_bytes_eq (ranks : gmap string Rank) (piece : string) :
  individual_bytes ranks piece = ranks_of ranks (byte_parts piece).
Proof.
  induction piece as [|c s IH]; [done |].
  simpl. rewrite IH. unfold ranks_of. simpl.
  by destruct (ranks !! single c).
Qed.

Lemma parts_to_ranks_eq (f : string -> option (list Rank))
    (ranks : gmap string Rank) (parts : list string) :
  (forall part, part ∈ parts -> ranks !! part = None -> f part = Some []) ->
  parts_to_ranks f ranks parts = Some (ranks_of ranks parts).
Proof.
  induction parts as [|p ps IH]; intros Hf; [done |].
  simpl. rewrite IH by (intros; apply Hf; [by right | done]).
  unfold ranks_of. simpl.
  destruct (ranks !! p) eqn:Hp; [done |].
  by rewrite (Hf p) by (by left || done).
Qed.

(** Any fuel from two on gives the same, defined, answer. *)
Lemma byte_pair_encode_fuel_enough (fuel : nat) (piece : string)
    (ranks : gmap string Rank) :
  byte_pair_encode_fuel (S (S fuel)) piece ranks
  = Some (ranks_of ranks (bpe_parts ranks piece)).
Proof.
  pose proof (bpe_parts_cases ranks piece) as Hcases.
  unfold bpe_parts in *. simpl.
  destruct (Nat.eqb (String.length piece) 1).
  - unfold ranks_of. simpl. by destruct (ranks !! piece).
  - destruct (sort_merges _) as [|[pos r] l].
    + by rewrite individual_bytes_eq.
    + apply parts_to_ranks_eq. intros part Hin Hnone.
      destruct (Hcases part Hin) as [Hlen | [? Hsome]]; [| congruence].
      apply Nat.eqb_eq in Hlen. by rewrite Hlen, Hnone.
Qed.

Lemma byte_pair_encode_eq (piece : string) (ranks : gmap string Rank) :
  byte_pair_encode piece ranks = ranks_of ranks (bpe_parts ranks piece).
Proof. unfold byte_pair_encode. by rewrite byte_pair_encode_fuel_enough. Qed.

(** ** Decoding *)

Lemma decode_bytes_cons (bpe : CoreBPE) (token : Rank) (rest : list Rank) :
  decode_bytes bpe (token :: rest)
  = match token_bytes bpe token with
    | Some bytes => let? tail := decode_bytes bpe rest in Ok (bytes +:+ tail)
    | None => Throw (DecodeKeyError token)
    end.
Proof.
  unfold token_bytes. simpl.
  destruct (decoder_ bpe !! token); [done |].
  by destruct (special_tokens_decoder_ bpe !! token).
Qed.

Lemma decode_bytes_single (bpe : CoreBPE) (token : Rank) :
  decode_bytes bpe [token]
  = match token_bytes bpe token with
    | Some bytes => Ok bytes
    | None => Throw (DecodeKeyError token)
    end.
Proof.
  rewrite decode_bytes_cons. destruct (token_bytes bpe token); [| done].
  simpl. by rewrite append_nil_r.
Qed.

Lemma decode_bytes_app (bpe : CoreBPE) (l1 l2 : list Rank) (s1 s2 : string) :
  decode_bytes bpe l1 = Ok s1 -> decode_bytes bpe l2 = Ok s2 ->
  decode_bytes bpe (l1 ++ l2) = Ok (s1 +:+ s2).
Proof.
  revert s1. induction l1 as [|t l1 IH]; intros s1 H1 H2.
  - injection H1 as <-. done.
  - rewrite <- app_comm_cons. rewrite decode_bytes_cons in *.
    destruct (token_bytes bpe t) as [b|]; [| done].
    destruct (decode_bytes bpe l1) as [tail| |] eqn:Htail; try done.
    injection H1 as <-. rewrite (IH tail eq_refl H2).
    by rewrite append_assoc.
Qed.

Lemma decode_ranks_of (bpe : CoreBPE) (parts : list string) :
  decoder_inverts bpe ->
  (forall part, part ∈ parts -> is_Some (encoder_ bpe !! part)) ->
  decode_bytes bpe (ranks_of (encoder_ bpe) parts) = Ok (cat parts).
Proof.
  intros Hinv. induction parts as [|p ps IH]; intros Hin; [done |].
  unfold ranks_of. rewrite fmap_cons, concat_cons. fold (ranks_of (encoder_ bpe) ps).
  destruct (Hin p) as [r Hr]; [by left |].
  rewrite Hr. simpl option_list. rewrite <- app_comm_cons, app_nil_l.
  rewrite decode_bytes_cons. unfold token_bytes. rewrite (Hinv p r Hr).
  rewrite IH by (intros; apply Hin; by right). done.
Qed.

Lemma decode_byte_pair_encode (bpe : CoreBPE) (piece : string) :
  decoder_inverts bpe -> has_all_bytes (encoder_ bpe) ->
  decode_bytes bpe (byte_pair_encode piece (encoder_ bpe)) = Ok piece.
Proof.
  intros Hinv Hall. rewrite byte_pair_encode_eq.
  rewrite decode_ranks_of; [by rewrite cat_bpe_parts | done |].
  intros part Hin.
  destruct (bpe_parts_cases _ _ _ Hin) as [Hlen | Hsome]; [| done].
  apply length_1_single in Hlen as [c ->]. apply Hall.
Qed.

Lemma decode_encode_pieces (bpe : CoreBPE) (pieces : list string) :
  decoder_inverts bpe -> has_all_bytes (encoder_ bpe) ->
  decode_bytes bpe
    (concat ((fun piece => byte_pair_encode piece (encoder_ bpe)) <$> pieces))
  = Ok (cat pieces).
Proof.
  intros Hinv Hall. induction pieces as [|p ps IH]; [done |].
  rewrite fmap_cons, concat_cons, cat_cons.
  by apply decode_bytes_app; [apply decode_byte_pair_encode |].
Qed.

(** The fallback regex leaves no byte of the text out. *)
Lemma cat_fallback_regex (text : string) : cat (fallback_regex text) = text.
Proof.
  induction text as [|c rest IH]; [done |].
  simpl. destruct (fallback_regex rest) as [|run runs].
  - simpl in IH. by rewrite <- IH.
  - destruct rest as [|c' rest']; [done |].
    rewrite cat_cons in IH.
    destruct (Bool.eqb _ _).
    + by rewrite cat_cons, append_cons, IH.
    + by rewrite !cat_cons, IH.
Qed.


(** ** The harmony vocabulary *)

Lemma harmony_decoder_inverts : decoder_inverts harmony_tokenizer.
Proof. apply (bool_decide_unpack _). vm_compute. exact I. Qed.

Lemma harmony_single_byte (c : ascii) :
  create_basic_encoder !! single c = Some (Z.of_nat (byte_val c)).
Proof. destruct c as [[] [] [] [] [] [] [] []]; vm_compute; reflexivity. Qed.

Lemma harmony_has_all_bytes : has_all_bytes (encoder_ harmony_tokenizer).
Proof.
  intros c. change (encoder_ harmony_tokenizer) with create_basic_encoder.
  rewrite harmony_single_byte. by eexists.
Qed.

Lemma harmony_ordinary_ranks :
  map_Forall (fun _ rank => (0 <= rank < 321)%Z) create_basic_encoder.
Proof. apply (bool_decide_unpack _). vm_compute. exact I. Qed.

Lemma harmony_special_ranks :
  map_Forall (fun rank _ => (200000 <= rank <= 200015)%Z)
    (special_tokens_decoder_ harmony_tokenizer).
Proof. apply (bool_decide_unpack _). vm_compute. exact I. Qed.

Lemma elem_of_concat {A} (x : A) (ls : list (list A)) :
  x ∈ concat ls -> exists l, x ∈ l /\ l ∈ ls.
Proof.
  induction ls as [|l ls IH]; simpl; intros H.
  - by apply elem_of_nil in H.
  - apply elem_of_app in H as [H | H].
    + exists l. split; [done | by left].
    + destruct (IH H) as (l' & ? & ?). exists l'. split; [done | by right].
Qed.

Lemma elem_of_ranks_of (ranks : gmap string Rank) (parts : list string) (r : Rank) :
  r ∈ ranks_of ranks parts -> exists part, ranks !! part = Some r.
Proof.
  unfold ranks_of. intros (l & Hr & (part & -> & Hin)%list_elem_of_fmap)%elem_of_concat.
  exists part. destruct (ranks !! part); simpl in Hr.
  - by apply list_elem_of_singleton in Hr as ->.
  - by apply elem_of_nil in Hr.
Qed.

Lemma elem_of_encode_ordinary (bpe : CoreBPE) (text : string) (r : Rank) :
  r ∈ encode_ordinary bpe text -> exists bytes, encoder_ bpe !! bytes = Some r.
Proof.
  unfold encode_ordinary.
  intros (l & Hr & (piece & -> & Hin)%list_elem_of_fmap)%elem_of_concat.
  rewrite byte_pair_encode_eq in Hr. by eapply elem_of_ranks_of.
Qed.


(** ** Ordinary encoding *)

Lemma decode_encode_ordinary_harmony (s : string) :
  decode_bytes harmony_tokenizer (encode_ordinary harmony_tokenizer s) = Ok s.
Proof.
  unfold encode_ordinary.
  rewrite decode_encode_pieces
    by (apply harmony_decoder_inverts || apply harmony_has_all_bytes).
  change (regex_ harmony_tokenizer) with fallback_regex.
  by rewrite cat_fallback_regex.
Qed.

(** C2. Encoding is lossless: for every byte string [s], decoding to
    bytes the ranks [encode_ordinary] returns for [s] over the harmony
    vocabulary gives [s] back, byte for byte. *)
Theorem encode_ordinary_lossless (s : string) :
  decode_bytes harmony_tokenizer (encode_ordinary harmony_tokenizer s) = Ok s.
Proof.
  unfold encode_ordinary.
  rewrite decode_encode_pieces
    by (apply harmony_decoder_inverts || apply harmony_has_all_bytes).
  change (regex_ harmony_tokenizer) with fallback_regex.
  by rewrite cat_fallback_regex.
Qed.

Lemma encode_ordinary_harmony_ranks (main_regex : option (string -> list string))
    (text : string) (r : Rank) :
  r ∈ encode_ordinary
        (CoreBPE_new create_basic_encoder create_harmony_special_tokens
           main_regex) text ->
  (0 <= r < 321)%Z.
Proof.
  intros [bytes Hb]%elem_of_encode_ordinary.
  exact (harmony_ordinary_ranks _ _ Hb).
Qed.

(** C3. Whatever the input string (and whatever pre-tokenizer regex the
    tokenizer was built with), every rank [encode_ordinary] produces over
    the harmony vocabulary is an ordinary rank below 321: it is below the
    reserved range, which starts at 200000, and is no special token. *)
Theorem encode_ordinary_never_reserved
    (main_regex : option (string -> list string)) (text : string) :
  Forall
    (fun r =>
       (0 <= r < 321)%Z /\ (r < 200000)%Z
       /\ is_special_token
            (CoreBPE_new create_basic_encoder create_harmony_special_tokens
               main_regex) r = false)
    (encode_ordinary
       (CoreBPE_new create_basic_encoder create_harmony_special_tokens
          main_regex) text).
Proof.
  apply Forall_forall. intros r Hin.
  apply encode_ordinary_harmony_ranks in Hin as Hr.
  split; [done |]. split; [lia |].
  unfold is_special_token. apply bool_decide_eq_false. intros [lit Hlit].
  pose proof (harmony_special_ranks _ _ Hlit) as Hs. simpl in Hs. lia.
Qed.

(** ** The special-token scanner *)







(** ** The renderer *)

Lemma get_special_token_start :
  get_special_token load_harmony_encoding "<|start|>" = Ok 200000%Z.
Proof. vm_compute. reflexivity. Qed.

Lemma get_special_token_end :
  get_special_token load_harmony_encoding "<|end|>" = Ok 200001%Z.
Proof. vm_compute. reflexivity. Qed.

Lemma get_special_token_message :
  get_special_token load_harmony_encoding "<|message|>" = Ok 200002%Z.
Proof. vm_compute. reflexivity. Qed.

Lemma get_special_token_channel :
  get_special_token load_harmony_encoding "<|channel|>" = Ok 200003%Z.
Proof. vm_compute. reflexivity. Qed.

Lemma get_special_token_constrain :
  get_special_token load_harmony_encoding "<|constrain|>" = Ok 200004%Z.
Proof. vm_compute. reflexivity. Qed.

Lemma get_special_token_role (r : Role) :
  get_special_token load_harmony_encoding (role_to_special_token r)
  = Ok (role_rank r).
Proof. destruct r; vm_compute; reflexivity. Qed.

(** Over the harmony encoding [render_message] throws nothing, and this
    is what it returns. *)
Lemma render_message_harmony (message : Message)
    (config : option RenderConversationConfig) :
  render_message load_harmony_encoding message config
  = Ok ((200000%Z :: role_rank (role (author message))
           :: header_tokens message
           ++ 200002%Z
           :: concat (render_content load_harmony_encoding <$> content message))
        ++ [200001%Z]).
Proof.
  unfold render_message, header_tokens.
  rewrite get_special_token_start, get_special_token_role,
    get_special_token_channel, get_special_token_constrain,
    get_special_token_message, get_special_token_end.
  change (tokenizer_ load_harmony_encoding) with harmony_tokenizer.
  destruct (channel message), (recipient message), (content_type message);
    f_equal;
    repeat (progress (rewrite <- ?app_assoc, <- ?app_comm_cons; simpl app));
    reflexivity.
Qed.

Lemma render_messages_harmony (msgs : list Message)
    (config : option RenderConversationConfig) :
  exists tokens, render_messages load_harmony_encoding msgs config = Ok tokens.
Proof.
  induction msgs as [|m msgs [tokens IH]]; [by eexists |].
  cbn [render_messages]. rewrite render_message_harmony, IH. by eexists.
Qed.

(** C4. For every conversation and every role, what
    [render_conversation_for_completion] returns is the rendering of the
    conversation followed by exactly two ranks: 200000, the rank the
    registry gives [<|start|>], and the rank the registry gives the special
    token of the role, the literal "<|", the role's name, "|>" (200011 for
    system, 200012 for user, 200013 for assistant, 200014 for developer and
    200015 for tool). *)
Theorem render_for_completion_ends_with_start_role
    (conversation : Conversation) (next_turn_role : Role)
    (config : option RenderConversationConfig) :
  exists tokens,
    render_conversation load_harmony_encoding conversation config = Ok tokens
    /\ render_conversation_for_completion load_harmony_encoding conversation
         next_turn_role config
       = Ok (tokens ++ [200000%Z; role_rank next_turn_role])
    /\ ("<|start|>", 200000%Z) ∈ create_harmony_special_tokens
    /\ ("<|" +:+ role_to_string next_turn_role +:+ "|>",
         role_rank next_turn_role) ∈ create_harmony_special_tokens
    /\ role_rank next_turn_role
       = match next_turn_role with
         | System => 200011%Z
         | User => 200012%Z
         | Assistant => 200013%Z
         | Developer => 200014%Z
         | Tool => 200015%Z
         end.
Proof.
  destruct (render_messages_harmony (messages conversation) config)
    as [tokens Htokens].
  exists tokens.
  unfold render_conversation, render_conversation_for_completion.
  rewrite Htokens, get_special_token_start, get_special_token_role.
  split; [reflexivity |]. split; [reflexivity |].
  split; [apply (bool_decide_unpack _); vm_compute; exact I |].
  split; [| by destruct next_turn_role].
  destruct next_turn_role; apply (bool_decide_unpack _); vm_compute; exact I.
Qed.

Lemma encode_ordinary_not_call (text : string) :
  Forall (fun r => r <> 200005%Z) (encode_ordinary harmony_tokenizer text).
Proof.
  apply Forall_forall. intros r Hin.
  apply (encode_ordinary_harmony_ranks None) in Hin. lia.
Qed.

Lemma render_content_not_call (c : Content) :
  Forall (fun r => r <> 200005%Z) (render_content load_harmony_encoding c).
Proof. destruct c; apply encode_ordinary_not_call. Qed.

Lemma Forall_concat {A} (P : A -> Prop) (ls : list (list A)) :
  Forall (Forall P) ls -> Forall P (concat ls).
Proof.
  induction 1 as [|l ls Hl _ IH]; simpl; [constructor |].
  by apply Forall_app.
Qed.

(** C6, as the code has it. For every message, whatever its role and
    whether or not it has a recipient, the rendered token sequence ends
    with the rank of [<|end|>], and the rank of [<|call|>] occurs nowhere
    in it. *)
Theorem render_message_ends_with_end (message : Message)
    (config : option RenderConversationConfig) :
  exists tokens,
    render_message load_harmony_encoding message config
    = Ok (tokens ++ [200001%Z])
    /\ get_special_token load_harmony_encoding "<|end|>" = Ok 200001%Z
    /\ Forall (fun r => r <> 200005%Z) tokens.
Proof.
  eexists. split; [apply render_message_harmony |].
  split; [apply get_special_token_end |].
  apply Forall_cons. split; [done |].
  apply Forall_cons. split; [by destruct (role (author message)) |].
  apply Forall_app. split.
  - unfold header_tokens.
    repeat (apply Forall_app; split);
      [destruct (channel message) | destruct (recipient message)
       | destruct (content_type message)];
      try apply Forall_nil_2; try (apply Forall_cons; split; [done |]);
      apply encode_ordinary_not_call.
  - apply Forall_cons. split; [done |].
    apply Forall_concat, Forall_fmap, Forall_forall.
    intros c _. apply render_content_not_call.
Qed.

(** ** The streamable parser *)

(** A property of every token the harmony tokenizer can decode, checked
    on the two decoder tables. *)
Lemma harmony_tokens_all (P : Rank -> string -> Prop)
    `{!forall t b, Decision (P t b)} :
  bool_decide (map_Forall P (decoder_ harmony_tokenizer)) = true ->
  bool_decide (map_Forall P (special_tokens_decoder_ harmony_tokenizer)) = true ->
  forall t b, token_bytes harmony_tokenizer t = Some b -> P t b.
Proof.
  intros H1%bool_decide_eq_true_1 H2%bool_decide_eq_true_1 t b.
  unfold token_bytes.
  destruct (decoder_ harmony_tokenizer !! t) as [b'|] eqn:Hd.
  - intros [= <-]. by apply H1.
  - intros Hs. by apply H2.
Qed.

Lemma decode_utf8_single (bpe : CoreBPE) (token : Rank) :
  decode_utf8 bpe [token]
  = match token_bytes bpe token with
    | Some bytes =>
        if utf8_basic_check bytes then Ok bytes
        else Throw (DecodeError "Invalid UTF-8 sequence")
    | None => Throw (DecodeKeyError token)
    end.
Proof.
  unfold decode_utf8. rewrite decode_bytes_single.
  by destruct (token_bytes bpe token).
Qed.

Lemma decode_utf8_single_Ok (bpe : CoreBPE) (token : Rank) (text : string) :
  decode_utf8 bpe [token] = Ok text ->
  token_bytes bpe token = Some text /\ utf8_basic_check text = true.
Proof.
  rewrite decode_utf8_single.
  destruct (token_bytes bpe token) as [b|]; [| done].
  destruct (utf8_basic_check b) eqn:Hb; [| done].
  by intros [= <-].
Qed.

(** Only rank 200000 decodes to [<|start|>]. *)
Lemma harmony_start_token (t : Rank) (b : string) :
  token_bytes harmony_tokenizer t = Some b ->
  b = "<|start|>" <-> t = 200000%Z.
Proof.
  revert t b.
  apply (harmony_tokens_all (fun t b => b = "<|start|>" <-> t = 200000%Z));
    vm_compute; reflexivity.
Qed.

(** A harmony token that passes the check of [decode_utf8] on its own is
    well-formed UTF-8. *)
Lemma harmony_token_utf8 (t : Rank) (b : string) :
  token_bytes harmony_tokenizer t = Some b ->
  utf8_basic_check b = true -> utf8_valid b = true.
Proof.
  revert t b.
  apply (harmony_tokens_all
           (fun t b => utf8_basic_check b = true -> utf8_valid b = true));
    vm_compute; reflexivity.
Qed.

Lemma decode_utf8_start :
  decode_utf8 harmony_tokenizer [200000%Z] = Ok "<|start|>".
Proof. vm_compute. reflexivity. Qed.

(** [process], with the token stored first and the tokenizer named. *)
Lemma process_unfold (p : StreamableParser) (token : Rank) (bpe : CoreBPE) :
  tokenizer_ (encoding_ p) = bpe ->
  process p token
  = let? token_text := decode_utf8 bpe [token] in
    match state_ p with
    | ExpectStart =>
        if String.eqb token_text "<|start|>"
        then Ok (set_state Header (push_token token p))
        else Ok (push_token token p)
    | Header =>
        let p' :=
          set_current_role (parse_role_from_token token_text)
            (push_token token p) in
        if bool_decide (is_Some (current_role_ p'))
        then Ok (set_state Content_ p') else Ok p'
    | Content_ =>
        if String.eqb token_text "<|channel|>" then Ok (push_token token p)
        else if String.eqb token_text "<|constrain|>" then Ok (push_token token p)
        else if String.eqb token_text "<|message|>" then Ok (push_token token p)
        else if String.eqb token_text "<|end|>" then
          Ok (set_state ExpectStart
                (finalize_current_message (push_token token p)))
        else Ok (append_content token_text (push_token token p))
    end.
Proof. intros <-. reflexivity. Qed.

(** C7, as the code has it. In state [ExpectStart] the parser moves to
    [Header] on the rank of [<|start|>]; any other token that decodes is
    stored and otherwise ignored, the state staying [ExpectStart]; the only
    errors are those of decoding the token (a rank in neither decoder, a
    token that is not UTF-8 on its own). *)
Theorem process_expect_start (p : StreamableParser) (token : Rank) :
  tokenizer_ (encoding_ p) = harmony_tokenizer -> state_ p = ExpectStart ->
  (token = 200000%Z ->
   process p token = Ok (set_state Header (push_token token p)))
  /\ (token <> 200000%Z ->
      process p token
      = let? _ := decode_utf8 harmony_tokenizer [token] in
        Ok (push_token token p))
  /\ state_ (push_token token p) = ExpectStart.
Proof.
  intros Htok Hst. rewrite (process_unfold p token _ Htok), Hst.
  split; [| split; [| exact Hst]].
  - intros ->. rewrite decode_utf8_start. reflexivity.
  - intros Hne.
    destruct (decode_utf8 harmony_tokenizer [token]) as [text| |] eqn:Hd;
      [| reflexivity | reflexivity].
    apply decode_utf8_single_Ok in Hd as [Hb _].
    destruct (String.eqb_spec text "<|start|>") as [Heq | _]; [| reflexivity].
    apply (harmony_start_token _ _ Hb) in Heq. exfalso. exact (Hne Heq).
Qed.

(** C9, as the code has it. Over the harmony tokenizer, a [process] call
    that returns leaves a delta that is absent or well-formed UTF-8, and
    it holds nothing back ([undecoded_tokens_] is untouched); the parser
    does not defer: each token is decoded and checked on its own, and a
    token [decode_utf8] rejects (such as the first byte of a code point
    split over two tokens) makes [process] throw that decode error. *)
Theorem process_delta_valid (p : StreamableParser) (token : Rank) :
  tokenizer_ (encoding_ p) = harmony_tokenizer -> delta_valid p ->
  (forall e, decode_utf8 harmony_tokenizer [token] = Throw e ->
             process p token = Throw e)
  /\ (forall p', process p token = Ok p' ->
                 delta_valid p'
                 /\ undecoded_tokens_ p' = undecoded_tokens_ p).
Proof.
  intros Htok Hvalid. rewrite (process_unfold p token _ Htok).
  split.
  - intros e ->. reflexivity.
  - intros p'.
    destruct (decode_utf8 harmony_tokenizer [token]) as [text| |] eqn:Hd;
      [| intros H; exfalso; clear -H; congruence
       | intros H; exfalso; clear -H; congruence].
    apply decode_utf8_single_Ok in Hd as [Hb Hcheck].
    pose proof (harmony_token_utf8 _ _ Hb Hcheck) as Htext.
    clear Hb Hcheck Htok. unfold delta_valid in *.
    destruct (state_ p).
    + destruct (String.eqb text "<|start|>"); intros [= <-]; by split.
    + destruct (bool_decide _); intros [= <-]; by split.
    + repeat (destruct (String.eqb text _); [intros [= <-]; split; [| try done] |]);
        try done.
      * unfold finalize_current_message. cbn [push_token current_role_].
        by destruct (current_role_ p).
      * unfold finalize_current_message. cbn [push_token current_role_].
        by destruct (current_role_ p).
      * intros [= <-]. by split.
Qed.

(** C10. Whenever a step of the parser ([process] or [process_eos])
    changes the list of completed messages, it appends exactly one message
    to it and, in the same step, resets every field of the message in
    progress: the content is empty and role, channel, recipient and
    content type are absent. *)
Theorem finalize_resets_fields (p p' : StreamableParser) :
  parser_step p p' -> messages_ p' <> messages_ p ->
  fields_reset p' /\ exists m, messages_ p' = messages_ p ++ [m].
Proof.
  assert (Hfin : forall q, messages_ (finalize_current_message q) <> messages_ q ->
            fields_reset (finalize_current_message q)
            /\ exists m, messages_ (finalize_current_message q)
                         = messages_ q ++ [m]).
  { intros q. unfold finalize_current_message, fields_reset.
    destruct (current_role_ q); [| done].
    intros _. cbn. repeat split; by eexists. }
  intros [q token q' Hproc | q] Hne.
  - rewrite (process_unfold q token _ eq_refl) in Hproc.
    destruct (decode_utf8 _ _) as [text| |]; [| done | done].
    destruct (state_ q).
    + destruct (String.eqb text "<|start|>"); injection Hproc as <-; done.
    + cbv zeta in Hproc.
      destruct (bool_decide (is_Some _)); injection Hproc as <-; done.
    + repeat (destruct (String.eqb text _); [injection Hproc as <-; try done |]).
      * apply (Hfin (push_token token q)), Hne.
      * injection Hproc as <-. done.
  - unfold process_eos in *. destruct (state_ q); try done.
    destruct (negb _); [by apply Hfin | done].
Qed.

Lemma finalize_no_header_fields (p : StreamableParser) :
  no_header_fields p -> no_header_fields (finalize_current_message p).
Proof.
  intros (Hc & Hr & Ht & Hm). unfold finalize_current_message.
  destruct (current_role_ p); [| done].
  repeat split; try done. cbn. apply Forall_app. split; [done |].
  apply Forall_cons. repeat split; try done. 
Qed.

Lemma process_no_header_fields (p p' : StreamableParser) (token : Rank) :
  process p token = Ok p' -> no_header_fields p -> no_header_fields p'.
Proof.
  intros Hproc Hinv. rewrite (process_unfold p token _ eq_refl) in Hproc.
  destruct (decode_utf8 _ _) as [text| |]; [| done | done].
  destruct (state_ p).
  - destruct (String.eqb text "<|start|>"); injection Hproc as <-; done.
  - cbv zeta in Hproc.
    destruct (bool_decide (is_Some _)); injection Hproc as <-; done.
  - repeat (destruct (String.eqb text _); [injection Hproc as <-; try done |]).
    + by apply (finalize_no_header_fields (push_token token p)).
    + injection Hproc as <-. done.
Qed.

(** ** The failing inputs of the claims the code breaks *)

(** C1 at the conversation [[User "Hello"]]: it renders to
    [<|start|><|user|><|message|>Hello<|end|>], and parsing these tokens
    gives no message at all, where the claim has the one message of the
    conversation (the pattern of [parse_harmony_format] wants the role as
    text not starting with [<], the renderer writes it as the special token
    [<|user|>]). *)
Theorem roundtrip_loses_message :
  let c := {| messages := [hello_message] |} in
  strip_empty c = c
  /\ render_conversation load_harmony_encoding c None
     = Ok [200000; 200012; 200002; 72; 290; 108; 111; 200001]%Z
  /\ decode_utf8 harmony_tokenizer
       [200000; 200012; 200002; 72; 290; 108; 111; 200001]%Z
     = Ok "<|start|><|user|><|message|>Hello<|end|>"
  /\ parse_messages_from_completion_tokens load_harmony_encoding
       [200000; 200012; 200002; 72; 290; 108; 111; 200001]%Z None
     = Ok [].
Proof. vm_compute. repeat split; reflexivity. Qed.

(** C8 at the stream of the specification's scenario. The tokens of
    [<|start|>assistant<|channel|>final<|message|>Hi], fed one by one to a
    fresh parser, leave it in state [Header] with no role, no channel and
    empty content; with the role given as the special token
    [<|assistant|>] the text after [<|channel|>] goes to the content
    ("finalHi") and the channel stays absent. *)
Theorem streaming_channel_not_captured :
  encode_with_special_tokens harmony_tokenizer
    "<|start|>assistant<|channel|>final<|message|>Hi"
  = Ok [200000; 97; 115; 115; 105; 115; 116; 260; 116; 200003; 102; 258; 97;
        108; 200002; 72; 105]%Z
  /\ match
       process_all (StreamableParser_new load_harmony_encoding (Some Assistant))
         [200000; 97; 115; 115; 105; 115; 116; 260; 116; 200003; 102; 258; 97;
          108; 200002; 72; 105]%Z
     with
     | Ok p =>
         state_ p = Header /\ current_role_ p = None
         /\ current_channel_ p = None /\ current_content_ p = EmptyString
         /\ messages_ p = []
     | _ => False
     end
  /\ match
       process_all (StreamableParser_new load_harmony_encoding (Some Assistant))
         [200000; 200013; 200003; 102; 258; 97; 108; 200002; 72; 105]%Z
     with
     | Ok p =>
         state_ p = Content_ /\ current_role_ p = Some Assistant
         /\ current_channel_ p = None /\ current_content_ p = "finalHi"
         /\ messages_ p = []
     | _ => False
     end.
Proof. vm_compute. repeat split; reflexivity. Qed.

(** * Further properties of the code *)

(** ** byte_pair_encode *)

(** X1. [byte_pair_encode] always returns, and its recursion is at most
    one call deep: with any bound of two or more on the depth of the calls
    the result is defined and is the same. *)
Theorem byte_pair_encode_returns (fuel : nat) (piece : string)
    (ranks : gmap string Rank) :
  byte_pair_encode_fuel (S (S fuel)) piece ranks
  = Some (byte_pair_encode piece ranks).
Proof. by rewrite byte_pair_encode_fuel_enough, byte_pair_encode_eq. Qed.

Lemma sort_merges_nil (l : list (nat * Rank)) : sort_merges l = [] -> l = [].
Proof.
  destruct l as [|m l]; [done |]. simpl.
  destruct (sort_merges l) as [|m' l']; simpl; [done |].
  by destruct (m'.2 <? m.2)%Z.
Qed.

Lemma length_new_parts_from (merge_pos : nat) (merged : string)
    (parts : list string) :
  merge_pos + 1 < length parts ->
  length (new_parts_from 0 merge_pos merged parts) = length parts - 1.
Proof.
  intros Hlen. rewrite new_parts_from_le by lia.
  rewrite length_app, length_take. cbn [length]. rewrite length_drop. lia.
Qed.

Lemma length_ranks_of (ranks : gmap string Rank) (parts : list string) :
  Forall (fun part => is_Some (ranks !! part)) parts ->
  length (ranks_of ranks parts) = length parts.
Proof.
  induction 1 as [|p ps [r Hr] _ IH]; [done |].
  unfold ranks_of in *. rewrite fmap_cons, concat_cons, length_app, IH, Hr.
  done.
Qed.

Lemma bpe_parts_in_ranks (ranks : gmap string Rank) (piece : string) :
  has_all_bytes ranks ->
  Forall (fun part => is_Some (ranks !! part)) (bpe_parts ranks piece).
Proof.
  intros Hall. apply Forall_forall. intros part Hin.
  destruct (bpe_parts_cases _ _ _ Hin) as [Hlen | Hsome]; [| done].
  apply length_1_single in Hlen as [c ->]. apply Hall.
Qed.

(** X2. [byte_pair_encode] merges one pair and stops. Over a vocabulary
    that has all single bytes, the result has one rank per byte of the piece
    when no two adjacent bytes form a vocabulary entry, and exactly one rank
    fewer as soon as some pair does: the merges are not iterated. *)
Theorem byte_pair_encode_one_merge (ranks : gmap string Rank) (piece : string) :
  has_all_bytes ranks ->
  length (byte_pair_encode piece ranks)
  = if decide (byte_pair_merge ranks piece = []) then String.length piece
    else String.length piece - 1.
Proof.
  intros Hall. rewrite byte_pair_encode_eq.
  rewrite length_ranks_of by (by apply bpe_parts_in_ranks).
  unfold bpe_parts.
  destruct (Nat.eqb_spec (String.length piece) 1) as [H1 | H1].
  - apply length_1_single in H1 as [c ->]. done.
  - destruct (sort_merges (byte_pair_merge ranks piece)) as [|[pos r] l] eqn:Hs.
    + apply sort_merges_nil in Hs. rewrite Hs.
      rewrite decide_True by done. apply length_byte_parts.
    + assert ((pos, r) ∈ byte_pair_merge ranks piece) as Hin.
      { apply elem_of_sort_merges. rewrite Hs. by left. }
      rewrite decide_False by (intros Hnil; rewrite Hnil in Hin; by apply elem_of_nil in Hin).
      apply byte_pair_merge_from_spec in Hin as (k & -> & _ & Hlen).
      unfold apply_merge. rewrite length_byte_parts.
      destruct (Nat.ltb_spec (0 + k + 1) (String.length piece)); [| simpl in *; lia].
      rewrite length_new_parts_from by (rewrite length_byte_parts; simpl; lia).
      by rewrite length_byte_parts.
Qed.

(** ** The constructor and the decoders *)

(** X3. The decoder the constructor builds inverts the encoder whenever
    no two byte strings of the encoder share a rank: looking up the rank of
    an entry gives the entry back. *)
Theorem constructor_decoder_inverts (encoder : gmap string Rank)
    (special_tokens_encoder : list (string * Rank))
    (main_regex : option (string -> list string)) :
  injective_vocabulary encoder ->
  decoder_inverts (CoreBPE_new encoder special_tokens_encoder main_regex).
Proof.
  unfold decoder_inverts, CoreBPE_new. cbn [decoder_ encoder_].
  intros Hinj. revert Hinj.
  apply (map_fold_weak_ind
           (fun d m => injective_vocabulary m ->
                       map_Forall (fun bytes rank => d !! rank = Some bytes) m)).
  - intros _ k r Hk. by rewrite lookup_empty in Hk.
  - intros i x m d Hi IH Hinj k r Hk.
    destruct (decide (k = i)) as [-> | Hne].
    + rewrite lookup_insert_eq in Hk. injection Hk as <-.
      apply lookup_insert_eq.
    + rewrite lookup_insert_ne in Hk by done.
      assert (x <> r) as Hxr.
      { intros <-. apply Hne. apply (Hinj k i x).
        - by rewrite lookup_insert_ne.
        - apply lookup_insert_eq. }
      rewrite lookup_insert_ne by done.
      apply IH; [| done].
      intros k1 k2 r' H1 H2.
      apply (Hinj k1 k2 r'); rewrite lookup_insert_ne; try done.
      * intros <-. by rewrite Hi in H1.
      * intros <-. by rewrite Hi in H2.
Qed.

(** X4. Encoding is lossless for every conforming tokenizer, not only the
    harmony one: when the decoder inverts the encoder, all 256 single bytes
    are vocabulary entries and the matches of the regex cover the text,
    decoding the ranks of [encode_ordinary] gives the text back. *)
Theorem encode_ordinary_lossless_general (bpe : CoreBPE) (text : string) :
  decoder_inverts bpe -> has_all_bytes (encoder_ bpe) ->
  cat (regex_ bpe text) = text ->
  decode_bytes bpe (encode_ordinary bpe text) = Ok text.
Proof.
  intros Hinv Hall Hcover. unfold encode_ordinary.
  by rewrite decode_encode_pieces, Hcover.
Qed.

Lemma decode_bytes_app_bind (bpe : CoreBPE) (l1 l2 : list Rank) :
  decode_bytes bpe (l1 ++ l2)
  = let? a := decode_bytes bpe l1 in
    let? b := decode_bytes bpe l2 in
    Ok (a +:+ b).
Proof.
  induction l1 as [|t l1 IH].
  - simpl. by destruct (decode_bytes bpe l2).
  - rewrite <- app_comm_cons, !decode_bytes_cons, IH.
    destruct (token_bytes bpe t); [| done].
    destruct (decode_bytes bpe l1); [| done | done].
    destruct (decode_bytes bpe l2); [| done | done].
    by rewrite append_assoc.
Qed.

(** X5. [decode_bytes] is a homomorphism from token lists to byte
    strings, errors included: decoding a concatenation is decoding the
    first list, then the second, and appending the bytes. *)
Theorem decode_bytes_concat (bpe : CoreBPE) (l1 l2 : list Rank) :
  decode_bytes bpe (l1 ++ l2)
  = let? a := decode_bytes bpe l1 in
    let? b := decode_bytes bpe l2 in
    Ok (a +:+ b).
Proof. exact (decode_bytes_app_bind bpe l1 l2). Qed.

(** X6. [decode_bytes] returns exactly when every token is in one of the
    two decoders, and the result is then the concatenation of the tokens'
    bytes; otherwise it throws [DecodeKeyError] carrying the first token
    that is in neither decoder. *)
Theorem decode_bytes_outcome (bpe : CoreBPE) (tokens : list Rank) :
  match decode_bytes bpe tokens with
  | Ok bytes =>
      exists pieces,
        Forall2 (fun t b => token_bytes bpe t = Some b) tokens pieces
        /\ bytes = cat pieces
  | Throw e =>
      exists known t rest,
        tokens = known ++ t :: rest
        /\ Forall (fun t' => is_Some (token_bytes bpe t')) known
        /\ token_bytes bpe t = None
        /\ e = DecodeKeyError t
  | Diverges => False
  end.
Proof.
  induction tokens as [|t tokens IH].
  - exists []. by split.
  - rewrite decode_bytes_cons.
    destruct (token_bytes bpe t) as [b|] eqn:Hb.
    + destruct (decode_bytes bpe tokens) as [bytes|e|]; [| | done].
      * destruct IH as (pieces & Hall & ->). exists (b :: pieces).
        split; [by constructor | done].
      * destruct IH as (known & t' & rest & -> & Hknown & Ht' & ->).
        exists (t :: known), t', rest. repeat split; try done.
        constructor; [by eexists | done].
    + exists [], t, tokens. by repeat split.
Qed.

(** ** decode_utf8 *)

Lemma utf8_lead2 (c : ascii) :
  in_range 194 223 c = true ->
  Nat.ltb (byte_val c) 128 = false
  /\ Nat.eqb (Nat.shiftr (byte_val c) 5) 6 = true.
Proof. destruct c as [[] [] [] [] [] [] [] []]; vm_compute; by intuition. Qed.

Lemma utf8_lead3 (c : ascii) :
  in_range 224 239 c = true ->
  Nat.ltb (byte_val c) 128 = false
  /\ in_range 194 223 c = false
  /\ Nat.eqb (Nat.shiftr (byte_val c) 5) 6 = false
  /\ Nat.eqb (Nat.shiftr (byte_val c) 4) 14 = true.
Proof. destruct c as [[] [] [] [] [] [] [] []]; vm_compute; by intuition. Qed.

Lemma utf8_lead4 (c : ascii) :
  in_range 240 244 c = true ->
  Nat.ltb (byte_val c) 128 = false
  /\ in_range 194 223 c = false /\ in_range 224 239 c = false
  /\ Nat.eqb (Nat.shiftr (byte_val c) 5) 6 = false
  /\ Nat.eqb (Nat.shiftr (byte_val c) 4) 14 = false
  /\ Nat.eqb (Nat.shiftr (byte_val c) 3) 30 = true.
Proof. destruct c as [[] [] [] [] [] [] [] []]; vm_compute; by intuition. Qed.

Lemma utf8_continuation (lo hi : nat) (c : ascii) :
  128 <= lo -> hi <= 191 -> in_range lo hi c = true -> is_continuation c = true.
Proof.
  intros Hlo Hhi [H1 H2]%andb_true_iff.
  apply Nat.leb_le in H1, H2.
  assert (in_range 128 191 c = true) as H.
  { apply andb_true_iff. split; apply Nat.leb_le; lia. }
  clear -H. revert H.
  destruct c as [[] [] [] [] [] [] [] []]; vm_compute; by intuition.
Qed.

Lemma utf8_continuation_if (a b : bool) (lo hi : nat) (c : ascii) :
  in_range (if a then lo else 128) (if b then hi else 191) c = true ->
  128 <= lo -> hi <= 191 -> is_continuation c = true.
Proof.
  intros H Hlo Hhi. destruct a, b;
    (eapply utf8_continuation; [| | exact H]); lia.
Qed.

Lemma utf8_valid_check_length (n : nat) :
  forall s, String.length s <= n ->
            utf8_valid s = true -> utf8_basic_check s = true.
Proof.
  induction n as [|n IH]; intros s Hlen.
  - destruct s; [done | simpl in Hlen; lia].
  - destruct s as [|c rest]; [done |].
    cbn [utf8_valid utf8_basic_check]. simpl in Hlen.
    destruct (Nat.ltb (byte_val c) 128) eqn:Hascii.
    { apply IH. lia. }
    destruct (in_range 194 223 c) eqn:H2.
    { destruct (utf8_lead2 c H2) as [_ ->].
      destruct rest as [|c1 r1]; [done |]. simpl in Hlen.
      intros [Hc1 Hr]%andb_true_iff.
      rewrite (utf8_continuation 128 191 c1) by (done || lia).
      apply IH; [lia | done]. }
    destruct (in_range 224 239 c) eqn:H3.
    { destruct (utf8_lead3 c H3) as (_ & _ & -> & ->).
      destruct rest as [|c1 [|c2 r2]]; [done | done |]. simpl in Hlen.
      intros [[Hc1 Hc2]%andb_true_iff Hr]%andb_true_iff.
      rewrite (utf8_continuation_if _ _ _ _ c1 Hc1),
        (utf8_continuation 128 191 c2) by (done || lia).
      apply IH; [lia | done]. }
    destruct (in_range 240 244 c) eqn:H4; [| done].
    destruct (utf8_lead4 c H4) as (_ & _ & _ & -> & -> & ->).
    destruct rest as [|c1 [|c2 [|c3 r3]]]; [done | done | done |].
    simpl in Hlen.
    intros [[[Hc1 Hc2]%andb_true_iff Hc3]%andb_true_iff Hr]%andb_true_iff.
    rewrite (utf8_continuation_if _ _ _ _ c1 Hc1),
      (utf8_continuation 128 191 c2), (utf8_continuation 128 191 c3)
      by (done || lia).
    apply IH; [lia | done].
Qed.

(** X7. [decode_utf8] never rejects well-formed UTF-8: when the bytes of
    the tokens are well-formed (RFC 3629), it returns them as
    [decode_bytes] does. *)
Theorem decode_utf8_accepts_valid (bpe : CoreBPE) (tokens : list Rank)
    (bytes : string) :
  decode_bytes bpe tokens = Ok bytes -> utf8_valid bytes = true ->
  decode_utf8 bpe tokens = Ok bytes.
Proof.
  intros Hd Hv. unfold decode_utf8. rewrite Hd.
  by rewrite (utf8_valid_check_length (String.length bytes) bytes).
Qed.

(** ** CoreBPE::encode *)

Lemma length_substr_from (n : nat) (s : string) :
  String.length (substr_from n s) = String.length s - n.
Proof.
  revert s. induction n as [|n IH]; intros s; simpl.
  - lia.
  - destruct s as [|c s]; simpl; [done | apply IH].
Qed.

Lemma first_bytes_substr_from (n : nat) (s : string) :
  first_bytes n s +:+ substr_from n s = s.
Proof.
  revert s. induction n as [|n IH]; intros s; [done |].
  destruct s as [|c s]; [done |].
  simpl. by rewrite append_cons, IH.
Qed.

Lemma substr_from_add (a b : nat) (s : string) :
  substr_from (a + b) s = substr_from b (substr_from a s).
Proof.
  revert s. induction a as [|a IH]; intros s; [done |].
  destruct s as [|c s]; simpl; [by destruct b | apply IH].
Qed.

(** A literal found at [pos] splits the text in three. *)
Lemma substr_split (pos : nat) (tok s : string) :
  substr pos (String.length tok) s = tok ->
  s = substr 0 pos s +:+ tok +:+ substr_from (pos + String.length tok) s.
Proof.
  unfold substr. intros Htok. cbn [substr_from].
  rewrite substr_from_add.
  rewrite <- (first_bytes_substr_from pos s) at 1. f_equal.
  rewrite <- (first_bytes_substr_from (String.length tok) (substr_from pos s)) at 1.
  by rewrite Htok.
Qed.

Lemma special_at_Some (bpe : CoreBPE) (allowed_special : gset string)
    (remaining_text : string) (pos : nat) (tok : string) (rank : Rank) :
  special_at bpe allowed_special remaining_text pos = Some (tok, rank) ->
  (tok, rank) ∈ special_tokens_encoder_ bpe
  /\ (tok ∈ allowed_special \/ allowed_special = ∅)
  /\ substr pos (String.length tok) remaining_text = tok.
Proof.
  unfold special_at. intros [Hin Hp]%List.find_some.
  apply andb_true_iff in Hp as [Hallowed Heq]. cbn [fst] in *.
  split; [by apply list_elem_of_In |]. split.
  - apply orb_true_iff in Hallowed as [H | H]; apply bool_decide_eq_true_1 in H;
      [by left | by right].
  - by apply String.eqb_eq.
Qed.

Lemma encode_loop_terminates (bpe : CoreBPE) (allowed_special : gset string) :
  specials_nonempty bpe ->
  forall fuel remaining_text pos result last_piece_token_len,
    String.length remaining_text - pos <= fuel ->
    is_Some (encode_loop fuel bpe allowed_special remaining_text pos result
               last_piece_token_len).
Proof.
  intros Hne. induction fuel as [|fuel IH];
    intros remaining_text pos result last Hfuel; simpl.
  - destruct (Nat.ltb_spec pos (String.length remaining_text)); [lia |].
    by eexists.
  - destruct (Nat.ltb_spec pos (String.length remaining_text)); [| by eexists].
    simpl.
    destruct (special_at _ _ _ _) as [[tok rank]|] eqn:Hspecial.
    + apply special_at_Some in Hspecial as (Hin & _ & _).
      pose proof (proj1 (Forall_forall _ _) Hne _ Hin) as Htok. simpl in Htok.
      apply IH. rewrite length_substr_from.
      destruct tok; [done | simpl; lia].
    + apply IH. lia.
Qed.

Lemma encode_loop_more_fuel (bpe : CoreBPE) (allowed_special : gset string)
    (fuel : nat) :
  forall fuel' remaining_text pos result last_piece_token_len out,
    fuel <= fuel' ->
    encode_loop fuel bpe allowed_special remaining_text pos result
      last_piece_token_len = Some out ->
    encode_loop fuel' bpe allowed_special remaining_text pos result
      last_piece_token_len = Some out.
Proof.
  induction fuel as [|fuel IH];
    intros fuel' remaining_text pos result last out Hle; simpl.
  - destruct (negb _) eqn:Hexit; [| done].
    intros <-. destruct fuel'; simpl; by rewrite Hexit.
  - destruct (negb _) eqn:Hexit.
    + intros <-. destruct fuel'; simpl; by rewrite Hexit.
    + destruct fuel' as [|fuel']; [lia |]. simpl. rewrite Hexit.
      destruct (special_at _ _ _ _) as [[tok rank]|]; apply IH; lia.
Qed.

Lemma encode_fuel_enough (bpe : CoreBPE) (text : string)
    (allowed_special : gset string) (fuel : nat) :
  specials_nonempty bpe -> String.length text <= fuel ->
  exists tokens last_piece_token_len,
    encode bpe text allowed_special = Ok (tokens, last_piece_token_len)
    /\ encode_fuel fuel bpe text allowed_special
       = Ok (tokens, last_piece_token_len).
Proof.
  intros Hne Hfuel. unfold encode, encode_fuel.
  destruct (special_tokens_encoder_ bpe) eqn:Hspecials; [by eexists _, _ |].
  destruct (encode_loop_terminates bpe allowed_special Hne
              (String.length text) text 0 [] 0) as [[[rem res] last] Hloop];
    [lia |].
  rewrite Hloop, (encode_loop_more_fuel _ _ _ fuel _ _ _ _ _ Hfuel Hloop).
  destruct (String.eqb rem EmptyString); by eexists _, _.
Qed.

(** X8. [encode] returns for every text and every allowed set as soon as
    no special literal of the tokenizer is empty: the scan loop ends within
    as many iterations as the text has bytes, and allowing more iterations
    changes nothing. *)
Theorem encode_terminates (bpe : CoreBPE) (text : string)
    (allowed_special : gset string) (fuel : nat) :
  specials_nonempty bpe -> String.length text <= fuel ->
  exists tokens last_piece_token_len,
    encode bpe text allowed_special = Ok (tokens, last_piece_token_len)
    /\ encode_fuel fuel bpe text allowed_special
       = Ok (tokens, last_piece_token_len).
Proof. apply encode_fuel_enough. Qed.

Lemma decode_encode_ordinary (bpe : CoreBPE) (text : string) :
  decoder_inverts bpe -> has_all_bytes (encoder_ bpe) ->
  (forall t, cat (regex_ bpe t) = t) ->
  decode_bytes bpe (encode_ordinary bpe text) = Ok text.
Proof.
  intros Hinv Hall Hcover. unfold encode_ordinary.
  by rewrite decode_encode_pieces, Hcover.
Qed.

Lemma encode_loop_decodes (bpe : CoreBPE) (allowed_special : gset string) :
  decoder_inverts bpe -> has_all_bytes (encoder_ bpe) ->
  (forall t, cat (regex_ bpe t) = t) -> specials_decode bpe ->
  forall fuel remaining_text pos result last decoded rem' res' last',
    decode_bytes bpe result = Ok decoded ->
    last <= length result ->
    encode_loop fuel bpe allowed_special remaining_text pos result last
    = Some (rem', res', last') ->
    last' <= length res'
    /\ exists decoded',
         decode_bytes bpe res' = Ok decoded'
         /\ decoded' +:+ rem' = decoded +:+ remaining_text.
Proof.
  intros Hinv Hall Hcover Hspec.
  induction fuel as [|fuel IH];
    intros remaining_text pos result last decoded rem' res' last' Hdec Hlast;
    simpl.
  - destruct (negb _); [| done]. intros [= <- <- <-]. split; [done |].
    by exists decoded.
  - destruct (negb _); [intros [= <- <- <-]; split; [done |]; by exists decoded |].
    destruct (special_at _ _ _ _) as [[tok rank]|] eqn:Hspecial; [| by apply IH].
    apply special_at_Some in Hspecial as (Hin & _ & Hsub).
    pose proof (proj1 (Forall_forall _ _) Hspec _ Hin) as Htok. simpl in Htok.
    intros Hloop.
    assert (decode_bytes bpe
              (if Nat.ltb 0 pos
               then result ++ encode_ordinary bpe (substr 0 pos remaining_text)
               else result)
            = Ok (decoded +:+ substr 0 pos remaining_text)) as Hbefore.
    { destruct (Nat.ltb_spec 0 pos) as [Hpos | Hpos].
      - rewrite decode_bytes_app_bind, Hdec, decode_encode_ordinary by done. done.
      - replace pos with 0 by lia. by rewrite append_nil_r. }
    eapply IH in Hloop as [Hlen (decoded' & Hdec' & Heq)];
      [| by rewrite decode_bytes_app_bind, Hbefore, decode_bytes_single, Htok
       | rewrite length_app; simpl; lia].
    split; [done |]. exists decoded'. split; [done |].
    rewrite Heq. symmetry.
    rewrite (substr_split pos tok remaining_text Hsub) at 1.
    by rewrite !append_assoc.
Qed.

(** The round trip through [encode], for a tokenizer that meets the
    four conditions. *)
Lemma encode_decodes (bpe : CoreBPE) (text : string)
    (allowed_special : gset string) (tokens : list Rank) (n : nat) :
  decoder_inverts bpe -> has_all_bytes (encoder_ bpe) ->
  (forall t, cat (regex_ bpe t) = t) -> specials_decode bpe ->
  encode bpe text allowed_special = Ok (tokens, n) ->
  decode_bytes bpe tokens = Ok text /\ n <= length tokens.
Proof.
  intros Hinv Hall Hcover Hspec. unfold encode, encode_fuel.
  destruct (special_tokens_encoder_ bpe) eqn:Hs.
  - intros [= <- <-]. split; [by apply decode_encode_ordinary | done].
  - destruct (encode_loop _ _ _ _ _ _ _) as [[[rem res] last]|] eqn:Hloop;
      [| done].
    eapply (encode_loop_decodes bpe allowed_special Hinv Hall Hcover Hspec)
      in Hloop as [Hlen (decoded & Hdec & Heq)]; [| done | done].
    rewrite append_nil_l in Heq.
    destruct (String.eqb_spec rem EmptyString) as [-> | Hrem].
    + intros [= <- <-]. rewrite append_nil_r in Heq. by subst.
    + intros [= <- <-]. split.
      * rewrite decode_bytes_app_bind, Hdec, decode_encode_ordinary by done.
        by rewrite Heq.
      * rewrite length_app. lia.
Qed.

Lemma harmony_specials_nonempty : specials_nonempty harmony_tokenizer.
Proof. apply (bool_decide_unpack _). vm_compute. exact I. Qed.

Lemma harmony_specials_decode : specials_decode harmony_tokenizer.
Proof. apply (bool_decide_unpack _). vm_compute. exact I. Qed.

(** X9. Encoding with special tokens is lossless too: for every text and
    every allowed set, [encode] over the harmony tokenizer returns, decoding
    its ranks gives the text back byte for byte, and
    [last_piece_token_len] does not exceed the number of ranks. *)
Theorem encode_roundtrip (text : string) (allowed_special : gset string) :
  exists tokens last_piece_token_len,
    encode harmony_tokenizer text allowed_special
    = Ok (tokens, last_piece_token_len)
    /\ decode_bytes harmony_tokenizer tokens = Ok text
    /\ last_piece_token_len <= length tokens.
Proof.
  destruct (encode_fuel_enough harmony_tokenizer text allowed_special
              (String.length text) harmony_specials_nonempty (le_n _))
    as (tokens & n & Henc & _).
  exists tokens, n. split; [exact Henc |].
  apply (encode_decodes harmony_tokenizer text allowed_special tokens n);
    [apply harmony_decoder_inverts | apply harmony_has_all_bytes
     | apply cat_fallback_regex | apply harmony_specials_decode | exact Henc].
Qed.

Lemma find_all_false {A} (f : A -> bool) (l : list A) :
  (forall x, x ∈ l -> f x = false) -> List.find f l = None.
Proof.
  induction l as [|x l IH]; intros H; [done |].
  simpl. rewrite (H x) by (by left). apply IH. intros; apply H. by right.
Qed.

Lemma encode_loop_no_special (bpe : CoreBPE) (allowed_special : gset string)
    (text : string) :
  (forall pos, special_at bpe allowed_special text pos = None) ->
  forall fuel pos,
    String.length text - pos <= fuel ->
    encode_loop fuel bpe allowed_special text pos [] 0 = Some (text, [], 0).
Proof.
  intros Hnone. induction fuel as [|fuel IH]; intros pos Hfuel; simpl.
  - destruct (Nat.ltb_spec pos (String.length text)); [lia | done].
  - destruct (Nat.ltb_spec pos (String.length text)); [| done]. simpl.
    rewrite Hnone. apply IH. lia.
Qed.

(** X10. The way to have special literals treated as ordinary text through
    [encode] is a non-empty allowed set that holds none of them: then, for
    every text, [encode] returns what [encode_ordinary] returns, with
    [last_piece_token_len] the number of ranks. *)
Theorem encode_disjoint_allowed_is_ordinary (bpe : CoreBPE) (text : string)
    (allowed_special : gset string) :
  allowed_special <> ∅ ->
  Forall (fun e => e.1 ∉ allowed_special) (special_tokens_encoder_ bpe) ->
  regex_ bpe EmptyString = [] ->
  encode bpe text allowed_special
  = Ok (encode_ordinary bpe text, length (encode_ordinary bpe text)).
Proof.
  intros Hne Hdisj Hregex. unfold encode, encode_fuel.
  destruct (special_tokens_encoder_ bpe) as [|e l] eqn:Hs; [done |].
  rewrite encode_loop_no_special; [| | lia].
  - destruct (String.eqb_spec text EmptyString) as [-> | _]; [| done].
    unfold encode_ordinary. by rewrite Hregex.
  - intros pos. unfold special_at. rewrite Hs.
    apply find_all_false. intros x Hx.
    pose proof (proj1 (Forall_forall _ _) Hdisj _ Hx) as Hnot. simpl in Hnot.
    rewrite (bool_decide_eq_false_2 _ Hnot), (bool_decide_eq_false_2 _ Hne).
    done.
Qed.

(** ** HarmonyEncoding::get_special_token *)

(** X11. Over the harmony encoding, [get_special_token] returns the rank
    the registry gives a special literal, for each of the sixteen literals,
    and throws [std::runtime_error] "Special token not found: ..." for every
    other string. *)
Theorem get_special_token_harmony (token : string) :
  get_special_token load_harmony_encoding token
  = match (list_to_map create_harmony_special_tokens : gmap string Rank)
            !! token with
    | Some rank => Ok rank
    | None => Throw (RuntimeError ("Special token not found: " +:+ token))
    end.
Proof.
  destruct (decide (token ∈ create_harmony_special_tokens.*1)) as [Hin | Hout].
  - unfold create_harmony_special_tokens in Hin.
    rewrite !fmap_cons in Hin. cbn [fst fmap list_fmap] in Hin.
    repeat (apply elem_of_cons in Hin as [-> | Hin];
            [vm_compute; reflexivity |]).
    by apply elem_of_nil in Hin.
  - rewrite (not_elem_of_list_to_map_1 _ _ Hout).
    unfold get_special_token.
    rewrite bool_decide_eq_false_2; [reflexivity |].
    unfold special_tokens. rewrite elem_of_list_to_set. exact Hout.
Qed.

(** ** The renderers *)

Local Opaque encode_ordinary.

Lemma decode_special (rank : Rank) (lit : string) (rest : list Rank) :
  token_bytes harmony_tokenizer rank = Some lit ->
  decode_bytes harmony_tokenizer (rank :: rest)
  = let? tail := decode_bytes harmony_tokenizer rest in Ok (lit +:+ tail).
Proof. intros H. by rewrite decode_bytes_cons, H. Qed.

Lemma token_bytes_role (r : Role) :
  token_bytes harmony_tokenizer (role_rank r) = Some (role_to_special_token r).
Proof. destruct r; vm_compute; reflexivity. Qed.

Lemma decode_render_contents (contents : list Content) :
  decode_bytes harmony_tokenizer
    (concat (render_content load_harmony_encoding <$> contents))
  = Ok (cat (content_text <$> contents)).
Proof.
  induction contents as [|c cs IH]; [reflexivity |].
  rewrite !fmap_cons, concat_cons, cat_cons, decode_bytes_app_bind, IH.
  destruct c as [text | sc | dc]; cbn [render_content content_text];
    change (tokenizer_ load_harmony_encoding) with harmony_tokenizer;
    [rewrite (decode_encode_ordinary_harmony text)
    | rewrite (decode_encode_ordinary_harmony (system_content_text sc))
    | rewrite (decode_encode_ordinary_harmony (developer_content_text dc))];
    reflexivity.
Qed.

Lemma decode_header_tokens (message : Message) :
  decode_bytes harmony_tokenizer (header_tokens message)
  = Ok (cat [match channel message with
             | Some ch => "<|channel|>" +:+ ch
             | None => EmptyString
             end;
             match recipient message with
             | Some rcpt => " to=" +:+ rcpt
             | None => EmptyString
             end;
             match content_type message with
             | Some ct => "<|constrain|>" +:+ ct
             | None => EmptyString
             end]).
Proof.
  unfold header_tokens. rewrite !decode_bytes_app_bind.
  assert (Hch : token_bytes harmony_tokenizer 200003%Z = Some "<|channel|>")
    by (vm_compute; reflexivity).
  assert (Hct : token_bytes harmony_tokenizer 200004%Z = Some "<|constrain|>")
    by (vm_compute; reflexivity).
  assert (H1 : decode_bytes harmony_tokenizer
                 match channel message with
                 | Some ch => 200003%Z :: encode_ordinary harmony_tokenizer ch
                 | None => []
                 end
               = Ok match channel message with
                    | Some ch => "<|channel|>" +:+ ch
                    | None => EmptyString
                    end).
  { destruct (channel message) as [ch|]; [| reflexivity].
    rewrite (decode_special _ _ _ Hch), (decode_encode_ordinary_harmony ch).
    reflexivity. }
  assert (H2 : decode_bytes harmony_tokenizer
                 match recipient message with
                 | Some rcpt =>
                     encode_ordinary harmony_tokenizer (" to=" +:+ rcpt)
                 | None => []
                 end
               = Ok match recipient message with
                    | Some rcpt => " to=" +:+ rcpt
                    | None => EmptyString
                    end).
  { destruct (recipient message) as [rcpt|]; [| reflexivity].
    apply decode_encode_ordinary_harmony. }
  assert (H3 : decode_bytes harmony_tokenizer
                 match content_type message with
                 | Some ct => 200004%Z :: encode_ordinary harmony_tokenizer ct
                 | None => []
                 end
               = Ok match content_type message with
                    | Some ct => "<|constrain|>" +:+ ct
                    | None => EmptyString
                    end).
  { destruct (content_type message) as [ct|]; [| reflexivity].
    rewrite (decode_special _ _ _ Hct), (decode_encode_ordinary_harmony ct).
    reflexivity. }
  rewrite H1, H2, H3. rewrite !cat_cons.
  change (cat []) with EmptyString. by rewrite append_nil_r.
Qed.

Lemma decode_render_message (message : Message)
    (config : option RenderConversationConfig) :
  exists tokens,
    render_message load_harmony_encoding message config = Ok tokens
    /\ decode_bytes harmony_tokenizer tokens = Ok (message_text message).
Proof.
  eexists. split; [apply render_message_harmony |].
  assert (Hs : token_bytes harmony_tokenizer 200000%Z = Some "<|start|>")
    by (vm_compute; reflexivity).
  assert (Hm : token_bytes harmony_tokenizer 200002%Z = Some "<|message|>")
    by (vm_compute; reflexivity).
  assert (He : token_bytes harmony_tokenizer 200001%Z = Some "<|end|>")
    by (vm_compute; reflexivity).
  rewrite decode_bytes_app_bind.
  rewrite (decode_special _ _ _ Hs), (decode_special _ _ _ (token_bytes_role _)).
  rewrite decode_bytes_app_bind, decode_header_tokens.
  rewrite (decode_special _ _ _ Hm), decode_render_contents.
  rewrite decode_bytes_single, He.
  unfold message_text. rewrite !cat_cons.
  change (cat []) with EmptyString.
  rewrite ?append_nil_r, ?append_assoc. reflexivity.
Qed.

(** X12. Decoding a rendered conversation gives its harmony text: the
    renderer never throws over the harmony encoding, and the bytes of the
    tokens are, message after message, [<|start|>], the role token, the
    optional [<|channel|>] with the channel, " to=" with the recipient,
    [<|constrain|>] with the content type, then [<|message|>], the texts of
    the contents and [<|end|>], every field byte for byte. *)
Theorem render_conversation_decodes (conversation : Conversation)
    (config : option RenderConversationConfig) :
  exists tokens,
    render_conversation load_harmony_encoding conversation config = Ok tokens
    /\ decode_bytes harmony_tokenizer tokens
       = Ok (cat (message_text <$> messages conversation)).
Proof.
  unfold render_conversation.
  induction (messages conversation) as [|m msgs (tokens & Hr & Hd)].
  - by exists [].
  - destruct (decode_render_message m config) as (mtokens & Hm & Hdm).
    exists (mtokens ++ tokens). cbn [render_messages]. rewrite Hm, Hr.
    split; [done |].
    by rewrite decode_bytes_app_bind, Hdm, Hd.
Qed.

Local Transparent encode_ordinary.

(** X13. Rendering distributes over the concatenation of message lists,
    for every encoding: the tokens of [a ++ b] are the tokens of [a]
    followed by those of [b], and an exception of either part is the
    exception of the whole, the first part's first. *)
Theorem render_messages_app (enc : HarmonyEncoding) (a b : list Message)
    (config : option RenderConversationConfig) :
  render_messages enc (a ++ b) config
  = let? x := render_messages enc a config in
    let? y := render_messages enc b config in
    Ok (x ++ y).
Proof.
  induction a as [|m a IH].
  - simpl. by destruct (render_messages enc b config).
  - rewrite <- app_comm_cons. cbn [render_messages]. rewrite IH.
    destruct (render_message enc m config); [| done | done].
    destruct (render_messages enc a config); [| done | done].
    destruct (render_messages enc b config); [| done | done].
    by rewrite app_assoc.
Qed.

Local Opaque encode_ordinary.

(** X14. [render] is not the message renderer: over the harmony encoding
    its tokens decode to the texts of the [TextContent] items alone, one
    after the other; role, channel, recipient and content type leave no
    trace, system and developer contents are passed over, and no special
    token is emitted. *)
Theorem render_decodes_plain_text (message : Message)
    (render_options : option RenderOptions) :
  decode_bytes harmony_tokenizer
    (render load_harmony_encoding message render_options)
  = Ok (cat (plain_text <$> content message))
  /\ Forall (fun r => (0 <= r < 321)%Z)
       (render load_harmony_encoding message render_options).
Proof.
  unfold render, render_into. rewrite app_nil_l.
  change (tokenizer_ load_harmony_encoding) with harmony_tokenizer.
  induction (content message) as [|c cs [IHd IHf]];
    [split; [reflexivity | constructor] |].
  rewrite !fmap_cons, concat_cons, cat_cons. split.
  - rewrite decode_bytes_app_bind, IHd.
    destruct c as [text | sc | dc]; cbn [plain_text];
      [rewrite (decode_encode_ordinary_harmony text) | |]; reflexivity.
  - apply Forall_app. split; [| exact IHf].
    destruct c; try apply Forall_nil_2.
    apply Forall_forall. intros r Hr.
    by apply (encode_ordinary_harmony_ranks None) in Hr.
Qed.

Local Transparent encode_ordinary.


(** ** Role names and role tokens *)

(** Case analysis on the first comparison of [s] with a literal. *)
Ltac case_eqb s :=
  match goal with
  | |- context [String.eqb s ?lit] =>
      destruct (String.eqb_spec s lit) as [-> | _]
  end.

(** X15. The role names of chat.cpp round-trip: [string_to_role] gives
    back the role [role_to_string] names, it accepts no other string (it
    throws [std::invalid_argument] "Unknown role: ..." on anything else), and
    the renderer's special token of a role is its name between "<|" and
    "|>". *)
Theorem role_names_roundtrip (r : Role) (str : string) :
  string_to_role (role_to_string r) = Ok r
  /\ (string_to_role str = Ok r -> str = role_to_string r)
  /\ ((forall r', str <> role_to_string r') ->
      string_to_role str = Throw (InvalidArgument ("Unknown role: " +:+ str)))
  /\ role_to_special_token r = "<|" +:+ role_to_string r +:+ "|>".
Proof.
  split; [by destruct r |]. split; [| split; [| by destruct r]].
  - unfold string_to_role.
    repeat (case_eqb str; [intros H; by injection H as <- |]).
    done.
  - intros Hne. unfold string_to_role.
    repeat (case_eqb str;
            [exfalso;
             first [ by apply (Hne User) | by apply (Hne Assistant)
                   | by apply (Hne System) | by apply (Hne Developer)
                   | by apply (Hne Tool) ] |]).
    done.
Qed.

(** X16. The streaming parser reads back the role token the renderer
    writes: [parse_role_from_token] of the special token of a role is that
    role, and it recognizes no other string, in particular not the plain
    role name. *)
Theorem parse_role_from_token_inverse (r : Role) (token : string) :
  parse_role_from_token (role_to_special_token r) = Some r
  /\ (parse_role_from_token token = Some r -> token = role_to_special_token r)
  /\ parse_role_from_token (role_to_string r) = None.
Proof.
  split; [by destruct r |]. split; [| by destruct r].
  unfold parse_role_from_token.
  repeat (case_eqb token; [intros H; by injection H as <- |]).
  done.
Qed.

(** ** Invariants of the streamable parser *)

Lemma process_tokens (p p' : StreamableParser) (token : Rank) :
  process p token = Ok p' ->
  tokens_ p' = tokens_ p ++ [token] /\ encoding_ p' = encoding_ p.
Proof.
  intros Hproc. rewrite (process_unfold p token _ eq_refl) in Hproc.
  destruct (decode_utf8 _ _) as [text| |]; [| done | done].
  destruct (state_ p).
  - destruct (String.eqb text "<|start|>"); injection Hproc as <-; done.
  - cbv zeta in Hproc.
    destruct (bool_decide (is_Some _)); injection Hproc as <-; done.
  - repeat (destruct (String.eqb text _); [injection Hproc as <-; try done |]).
    + unfold finalize_current_message. cbn [push_token current_role_].
      by destruct (current_role_ p).
    + injection Hproc as <-. done.
Qed.

(** X17. The parser stores every token it is fed, in order: after a
    stream is processed, [tokens_] is what it was followed by the stream. *)
Theorem process_all_tokens (tokens : list Rank) :
  forall p p' : StreamableParser,
    process_all p tokens = Ok p' -> tokens_ p' = tokens_ p ++ tokens.
Proof.
  induction tokens as [|t tokens IH]; intros p p'.
  - intros [= <-]. by rewrite app_nil_r.
  - cbn [process_all].
    destruct (process p t) as [p1| |] eqn:Hproc; [| done | done].
    intros Hrest. apply IH in Hrest. apply process_tokens in Hproc as [Ht _].
    by rewrite Hrest, Ht, <- app_assoc.
Qed.

Lemma process_all_no_header_fields (tokens : list Rank) :
  forall p p' : StreamableParser,
    process_all p tokens = Ok p' -> no_header_fields p -> no_header_fields p'.
Proof.
  induction tokens as [|t tokens IH]; intros p p'.
  - by intros [= <-].
  - cbn [process_all].
    destruct (process p t) as [p1| |] eqn:Hproc; [| done | done].
    intros Hrest Hinv. eapply IH; [exact Hrest |].
    by eapply process_no_header_fields.
Qed.

(** X18. The streaming parser captures no header field. Whatever stream is
    fed to a fresh parser, over any encoding, channel, recipient and content
    type of the message in progress stay absent, and every message it
    completes (also at [process_eos]) has no channel, no recipient, no
    content type and no author name. *)
Theorem stream_never_captures_header (enc : HarmonyEncoding)
    (role : option Role) (tokens : list Rank) (p : StreamableParser) :
  process_all (StreamableParser_new enc role) tokens = Ok p ->
  no_header_fields p /\ no_header_fields (process_eos p).
Proof.
  intros Hrun.
  assert (no_header_fields p) as Hp.
  { eapply process_all_no_header_fields; [exact Hrun |].
    repeat split. constructor. }
  split; [exact Hp |].
  unfold process_eos. destruct (state_ p); try done.
  destruct (negb _); [by apply finalize_no_header_fields | done].
Qed.



(** X20. [process_eos] is idempotent: a second call changes nothing.  It
    completes the message in progress exactly when the parser is in state
    [Content_] with non-empty content and a known role, and it leaves the
    state as it is. *)
Theorem process_eos_idempotent (p : StreamableParser) :
  process_eos (process_eos p) = process_eos p
  /\ state_ (process_eos p) = state_ p
  /\ (messages_ (process_eos p) <> messages_ p <->
      state_ p = Content_ /\ current_content_ p <> EmptyString
      /\ is_Some (current_role_ p)).
Proof.
  unfold process_eos.
  destruct (state_ p) eqn:Hst.
  - rewrite Hst. split; [done |]. split; [done |]. split; [done |].
    by intros [? _].
  - rewrite Hst. split; [done |]. split; [done |]. split; [done |].
    by intros [? _].
  - destruct (String.eqb_spec (current_content_ p) EmptyString) as [Hc | Hc];
      cbn [negb].
    + rewrite Hst, Hc. cbn. split; [done |]. split; [done |].
      split; [done |]. by intros (_ & ? & _).
    + unfold finalize_current_message.
      destruct (current_role_ p) as [r|] eqn:Hr.
      * cbn. rewrite Hst. cbn. split; [done |]. split; [done |].
        split; [intros _; repeat split; try done; by eexists |].
        intros _ Heq. apply (f_equal length) in Heq.
        rewrite length_app in Heq. simpl in Heq. lia.
      * rewrite Hst. destruct (String.eqb_spec (current_content_ p) EmptyString);
          [done |]. cbn [negb]. rewrite Hr.
        split; [done |]. split; [done |].
        split; [done |]. by intros (_ & _ & [? ?]).
Qed.

(** ** Streaming a rendered message *)

Local Opaque harmony_tokenizer.

Lemma is_ascii_app (a b : string) :
  is_ascii (a +:+ b) = is_ascii a && is_ascii b.
Proof.
  induction a as [|c a IH]; [done |].
  rewrite append_cons. simpl. by rewrite IH, andb_assoc.
Qed.

Lemma is_ascii_check (s : string) : is_ascii s = true -> utf8_basic_check s = true.
Proof.
  induction s as [|c s IH]; [done |].
  cbn [is_ascii utf8_basic_check]. intros [-> Hs]%andb_true_iff. by apply IH.
Qed.

(** An ordinary harmony token is none of the four literals the [Content_]
    state looks for. *)
Lemma harmony_ordinary_text (t : Rank) (b : string) :
  token_bytes harmony_tokenizer t = Some b -> (t < 321)%Z ->
  String.eqb b "<|channel|>" = false /\ String.eqb b "<|constrain|>" = false
  /\ String.eqb b "<|message|>" = false /\ String.eqb b "<|end|>" = false.
Proof.
  revert t b.
  apply (harmony_tokens_all
           (fun t b => (t < 321)%Z ->
              String.eqb b "<|channel|>" = false
              /\ String.eqb b "<|constrain|>" = false
              /\ String.eqb b "<|message|>" = false
              /\ String.eqb b "<|end|>" = false));
    vm_compute; reflexivity.
Qed.

(** A harmony token with a byte outside ASCII fails the check of
    [decode_utf8] on its own. *)
Lemma harmony_non_ascii_token (t : Rank) (b : string) :
  token_bytes harmony_tokenizer t = Some b ->
  is_ascii b = false -> utf8_basic_check b = false.
Proof.
  revert t b.
  apply (harmony_tokens_all
           (fun t b => is_ascii b = false -> utf8_basic_check b = false));
    vm_compute; reflexivity.
Qed.

(** The parser after an ordinary ASCII token in state [Content_]. *)
Lemma process_content_token (p : StreamableParser) (t : Rank) (b : string) :
  tokenizer_ (encoding_ p) = harmony_tokenizer -> state_ p = Content_ ->
  token_bytes harmony_tokenizer t = Some b -> (t < 321)%Z ->
  process p t
  = if is_ascii b then Ok (append_content b (push_token t p))
    else Throw (DecodeError "Invalid UTF-8 sequence").
Proof.
  intros Htok Hst Hb Ht. rewrite (process_unfold p t _ Htok), Hst.
  rewrite decode_utf8_single, Hb.
  destruct (is_ascii b) eqn:Hascii.
  - rewrite (is_ascii_check b Hascii).
    destruct (harmony_ordinary_text t b Hb Ht) as (-> & -> & -> & ->).
    reflexivity.
  - rewrite (harmony_non_ascii_token t b Hb Hascii). reflexivity.
Qed.

(** The run of the parser over ordinary tokens in state [Content_]: the
    texts of the tokens are appended to the content while they are ASCII. *)
Lemma process_all_content (tokens : list Rank) (pieces : list string) :
  Forall2 (fun t b => token_bytes harmony_tokenizer t = Some b) tokens pieces ->
  Forall (fun t => (t < 321)%Z) tokens ->
  forall (p : StreamableParser) (rest : list Rank),
    tokenizer_ (encoding_ p) = harmony_tokenizer -> state_ p = Content_ ->
    if is_ascii (cat pieces) then
      exists p',
        process_all p (tokens ++ rest) = process_all p' rest
        /\ tokenizer_ (encoding_ p') = harmony_tokenizer
        /\ state_ p' = Content_
        /\ current_content_ p' = current_content_ p +:+ cat pieces
        /\ current_role_ p' = current_role_ p
        /\ messages_ p' = messages_ p
        /\ current_channel_ p' = current_channel_ p
        /\ current_recipient_ p' = current_recipient_ p
        /\ current_content_type_ p' = current_content_type_ p
    else
      process_all p (tokens ++ rest)
      = Throw (DecodeError "Invalid UTF-8 sequence").
Proof.
  induction 1 as [|t b tokens pieces Hb _ IH]; intros Hlt p rest Htok Hst.
  - change (is_ascii (cat [])) with true. cbv iota.
    exists p. change (cat []) with EmptyString. rewrite append_nil_r.
    repeat split; [exact Htok | exact Hst].
  - apply Forall_cons in Hlt as [Ht Hlt].
    rewrite cat_cons, is_ascii_app, <- app_comm_cons. cbn [process_all].
    rewrite (process_content_token p t b Htok Hst Hb Ht).
    destruct (is_ascii b) eqn:Hascii; [| reflexivity].
    cbn [andb].
    specialize (IH Hlt (append_content b (push_token t p)) rest Htok Hst).
    destruct (is_ascii (cat pieces)); [| exact IH].
    destruct IH as (p' & Hrun & Htok' & Hst' & Hc & Hr & Hm & Hch & Hrc & Hct).
    exists p'. split; [exact Hrun |]. split; [exact Htok' |].
    split; [exact Hst' |].
    split; [rewrite Hc; cbn [current_content_ append_content push_token];
            by rewrite append_assoc |].
    repeat split; assumption.
Qed.

Lemma decode_bytes_ok_pieces (bpe : CoreBPE) (tokens : list Rank)
    (bytes : string) :
  decode_bytes bpe tokens = Ok bytes ->
  exists pieces,
    Forall2 (fun t b => token_bytes bpe t = Some b) tokens pieces
    /\ bytes = cat pieces.
Proof.
  revert bytes. induction tokens as [|t ts IH]; intros bytes.
  - intros H. injection H as <-. exists []. split; [constructor | reflexivity].
  - rewrite decode_bytes_cons.
    destruct (token_bytes bpe t) as [b|] eqn:Ht; [| done].
    destruct (decode_bytes bpe ts) as [rest| |] eqn:Hts; [| done | done].
    intros H. injection H as <-.
    destruct (IH rest eq_refl) as (ps & Hall & ->).
    exists (b :: ps). split; [by constructor | by rewrite cat_cons].
Qed.

(** The tokens of a text and the byte strings they stand for. *)
Lemma encode_ordinary_pieces (text : string) :
  exists pieces,
    Forall2 (fun t b => token_bytes harmony_tokenizer t = Some b)
      (encode_ordinary harmony_tokenizer text) pieces
    /\ cat pieces = text
    /\ Forall (fun t => (t < 321)%Z) (encode_ordinary harmony_tokenizer text).
Proof.
  destruct (decode_bytes_ok_pieces harmony_tokenizer
              (encode_ordinary harmony_tokenizer text) text
              (decode_encode_ordinary_harmony text)) as (pieces & Hall & Hcat).
  exists pieces. split; [exact Hall |]. split; [by symmetry |].
  apply Forall_forall. intros t Hin.
  apply (encode_ordinary_harmony_ranks None) in Hin. lia.
Qed.

Lemma decode_utf8_role (r : Role) :
  decode_utf8 harmony_tokenizer [role_rank r] = Ok (role_to_special_token r).
Proof. destruct r; vm_compute; reflexivity. Qed.

Lemma decode_utf8_message :
  decode_utf8 harmony_tokenizer [200002%Z] = Ok "<|message|>".
Proof. vm_compute. reflexivity. Qed.

Lemma decode_utf8_end :
  decode_utf8 harmony_tokenizer [200001%Z] = Ok "<|end|>".
Proof. vm_compute. reflexivity. Qed.

(** The parser of the harmony encoding after [<|start|>], a role token and
    [<|message|>]. *)
Lemma process_all_head (next_role : option Role) (r : Role)
    (rest : list Rank) :
  exists p : StreamableParser,
    process_all (StreamableParser_new load_harmony_encoding next_role)
      (200000%Z :: role_rank r :: 200002%Z :: rest)
    = process_all p rest
    /\ tokenizer_ (encoding_ p) = harmony_tokenizer
    /\ state_ p = Content_ /\ current_content_ p = EmptyString
    /\ current_role_ p = Some r /\ messages_ p = []
    /\ current_channel_ p = None /\ current_recipient_ p = None
    /\ current_content_type_ p = None.
Proof.
  set (p0 := StreamableParser_new load_harmony_encoding next_role).
  set (p1 := set_state Header (push_token 200000%Z p0)).
  set (p2 := set_state Content_
               (set_current_role (Some r) (push_token (role_rank r) p1))).
  set (p3 := push_token 200002%Z p2).
  assert (process p0 200000%Z = Ok p1) as H1.
  { rewrite (process_unfold p0 _ harmony_tokenizer eq_refl), decode_utf8_start.
    reflexivity. }
  assert (process p1 (role_rank r) = Ok p2) as H2.
  { rewrite (process_unfold p1 _ harmony_tokenizer eq_refl), decode_utf8_role.
    destruct r; reflexivity. }
  assert (process p2 200002%Z = Ok p3) as H3.
  { rewrite (process_unfold p2 _ harmony_tokenizer eq_refl), decode_utf8_message.
    reflexivity. }
  exists p3. split.
  - cbn [process_all]. rewrite H1. cbv beta iota.
    rewrite H2. cbv beta iota. rewrite H3. reflexivity.
  - repeat split; reflexivity.
Qed.

Lemma render_plain_message (r : Role) (text : string)
    (config : option RenderConversationConfig) :
  render_message load_harmony_encoding (plain_message r text) config
  = Ok (200000%Z :: role_rank r :: 200002%Z
          :: encode_ordinary harmony_tokenizer text ++ [200001%Z]).
Proof.
  rewrite render_message_harmony. f_equal.
  unfold header_tokens, plain_message.
  cbn [channel recipient content_type content author role fmap list_fmap
       concat render_content app].
  change (tokenizer_ load_harmony_encoding) with harmony_tokenizer.
  by rewrite app_nil_r.
Qed.

(** X21. The streaming parser reads a rendered plain message back. For
    every role and every ASCII text, feeding the tokens [render_message]
    gives for the message with that role and that text (no channel,
    recipient or content type) to a fresh parser returns, with exactly that
    message completed, the parser back in [ExpectStart] and all fields
    clear. *)
Theorem stream_of_rendered_plain_message (r : Role) (text : string)
    (next_role : option Role) (config : option RenderConversationConfig) :
  is_ascii text = true ->
  exists tokens p,
    render_message load_harmony_encoding (plain_message r text) config
    = Ok tokens
    /\ process_all (StreamableParser_new load_harmony_encoding next_role) tokens
       = Ok p
    /\ messages_ p = [plain_message r text]
    /\ state_ p = ExpectStart /\ fields_reset p.
Proof.
  intros Hascii.
  destruct (encode_ordinary_pieces text) as (pieces & Hall & Hcat & Hlt).
  destruct (process_all_head next_role r
              (encode_ordinary harmony_tokenizer text ++ [200001%Z]))
    as (p0 & Hrun0 & Htok0 & Hst0 & Hc0 & Hr0 & Hm0 & Hch0 & Hrc0 & Hct0).
  pose proof (process_all_content _ _ Hall Hlt p0 [200001%Z] Htok0 Hst0) as Hrun.
  rewrite Hcat, Hascii in Hrun.
  destruct Hrun as (p1 & Hrun1 & Htok1 & Hst1 & Hc1 & Hr1 & Hm1 & Hch1 & Hrc1 & Hct1).
  eexists _, _. split; [apply render_plain_message |].
  rewrite Hrun0, Hrun1. cbn [process_all].
  rewrite (process_unfold p1 200001%Z _ Htok1), decode_utf8_end, Hst1.
  change (String.eqb "<|end|>" "<|channel|>") with false.
  change (String.eqb "<|end|>" "<|constrain|>") with false.
  change (String.eqb "<|end|>" "<|message|>") with false.
  change (String.eqb "<|end|>" "<|end|>") with true. cbv beta iota.
  split; [reflexivity |].
  unfold finalize_current_message. cbn [push_token current_role_].
  rewrite Hr1, Hr0.
  cbn [messages_ state_ set_state current_content_ current_role_
       current_channel_ current_recipient_ current_content_type_ push_token
       fields_reset].
  rewrite Hm1, Hm0, Hc1, Hc0, Hch1, Hch0, Hrc1, Hrc0, Hct1, Hct0.
  rewrite append_nil_l. unfold fields_reset.
  cbn [messages_ state_ set_state current_content_ current_role_
       current_channel_ current_recipient_ current_content_type_ push_token].
  by repeat split.
Qed.

(** X22. The streaming parser cannot take a text with a byte outside
    ASCII, well-formed UTF-8 or not: the tokens of the rendering of a plain
    message whose text has such a byte make the parser throw the
    [DecodeError] of [decode_utf8]. *)
Theorem stream_of_rendered_non_ascii_throws (r : Role) (text : string)
    (next_role : option Role) (config : option RenderConversationConfig) :
  is_ascii text = false ->
  exists tokens,
    render_message load_harmony_encoding (plain_message r text) config
    = Ok tokens
    /\ process_all (StreamableParser_new load_harmony_encoding next_role) tokens
       = Throw (DecodeError "Invalid UTF-8 sequence").
Proof.
  intros Hascii.
  destruct (encode_ordinary_pieces text) as (pieces & Hall & Hcat & Hlt).
  destruct (process_all_head next_role r
              (encode_ordinary harmony_tokenizer text ++ [200001%Z]))
    as (p0 & Hrun0 & Htok0 & Hst0 & _).
  pose proof (process_all_content _ _ Hall Hlt p0 [200001%Z] Htok0 Hst0) as Hrun.
  rewrite Hcat, Hascii in Hrun.
  eexists. split; [apply render_plain_message |].
  by rewrite Hrun0, Hrun.
Qed.

Local Transparent harmony_tokenizer.

(** ** parse_harmony_format *)

Lemma prefix_append (l t : string) : String.prefix l (l +:+ t) = true.
Proof.
  induction l as [|c l IH]; [by destruct t |].
  rewrite append_cons. simpl. by destruct (ascii_dec c c).
Qed.

Lemma substr_from_append (l t : string) :
  substr_from (String.length l) (l +:+ t) = t.
Proof. induction l as [|c l IH]; [done |]. by rewrite append_cons. Qed.

Lemma first_bytes_append (l t : string) :
  first_bytes (String.length l) (l +:+ t) = l.
Proof.
  induction l as [|c l IH]; [done |].
  rewrite append_cons. simpl. by rewrite IH.
Qed.

(** *** Recognition of a special literal *)








Lemma consumed_append (l t : string) : consumed (l +:+ t) t = l.
Proof.
  unfold consumed, substr. cbn [substr_from].
  rewrite length_append.
  replace (String.length l + String.length t - String.length t)
    with (String.length l) by lia.
  apply first_bytes_append.
Qed.

Lemma rmatch_Lit_append (l t : string) (caps : captures) (k : continuation) :
  rmatch (Lit l) (l +:+ t) caps k = k t caps.
Proof. cbn [rmatch]. by rewrite prefix_append, substr_from_append. Qed.

(** A greedy run: when the rest of the match succeeds right after the
    longest run, that is the match. *)
Lemma greedy_star_run (cls : ascii -> bool) (w rest : string)
    (k : string -> option (string * captures)) (m : string * captures) :
  all_chars cls w = true -> greedy_star cls rest k = Some m ->
  greedy_star cls (w +:+ rest) k = Some m.
Proof.
  intros Hw Hrest. induction w as [|c w IH]; [done |].
  cbn [all_chars] in Hw. apply andb_true_iff in Hw as [Hc Hw].
  rewrite append_cons. cbn [greedy_star]. by rewrite Hc, IH.
Qed.

Lemma greedy_star_stop (cls : ascii -> bool) (s : string) (c : ascii)
    (s' : string) (k : string -> option (string * captures)) :
  s = String c s' -> cls c = false -> greedy_star cls s k = k s.
Proof. intros -> Hc. cbn [greedy_star]. by rewrite Hc. Qed.

(** A lazy run: the rest of the match fails at every character of the
    run and succeeds after it. *)
Lemma lazy_star_run (cls stop : ascii -> bool) (body rest : string)
    (k : string -> option (string * captures)) (m : string * captures) :
  all_chars cls body = true -> all_chars stop body = true ->
  (forall c s, stop c = true -> k (String c s) = None) ->
  k rest = Some m ->
  lazy_star cls (body +:+ rest) k = Some m.
Proof.
  intros Hbody Hstop Hfail Hrest.
  induction body as [|c body IH].
  - rewrite append_nil_l. destruct rest; cbn [lazy_star]; by rewrite Hrest.
  - cbn [all_chars] in Hbody, Hstop.
    apply andb_true_iff in Hbody as [Hc Hbody].
    apply andb_true_iff in Hstop as [Hs Hstop].
    rewrite append_cons. cbn [lazy_star].
    rewrite (Hfail c _ Hs), Hc. by apply IH.
Qed.

Lemma rmatch_Seq (r1 r2 : regex) (s : string) (caps : captures)
    (k : continuation) :
  rmatch (Seq r1 r2) s caps k
  = rmatch r1 s caps (fun s' caps' => rmatch r2 s' caps' k).
Proof. reflexivity. Qed.

Lemma rmatch_Optional_skip (r : regex) (s : string) (caps : captures)
    (k : continuation) :
  rmatch r s caps k = None -> rmatch (Optional r) s caps k = k s caps.
Proof. intros H. cbn [rmatch]. by rewrite H. Qed.

Lemma rmatch_Lit_fail (l s : string) (caps : captures) (k : continuation) :
  String.prefix l s = false -> rmatch (Lit l) s caps k = None.
Proof. intros H. cbn [rmatch]. by rewrite H. Qed.

Lemma not_lt_prefix_end (c : ascii) (s : string) :
  not_lt c = true -> String.prefix "<|end|>" (String c s) = false.
Proof.
  unfold not_lt, is_char. intros H%negb_true_iff%bool_decide_eq_false_1.
  change (String.prefix "<|end|>" (String c s))
    with (if ascii_dec "<" c then String.prefix "|end|>" s else false).
  destruct (ascii_dec "<" c) as [Heq | _]; [| done].
  by subst c.
Qed.

(** The last part of the pattern, [(.*?)<\|end\|>], on a body without
    [<] and line ends. *)
Lemma match_body (body : string) (caps : captures) :
  all_chars dot body = true -> all_chars not_lt body = true ->
  rmatch (Seq (Group 5 (LazyStar dot)) (Lit "<|end|>"))
    (body +:+ "<|end|>") caps (fun s' caps' => Some (s', caps'))
  = Some (EmptyString, <[5 := body]> caps).
Proof.
  intros Hdot Hlt. rewrite rmatch_Seq. cbn [rmatch].
  apply (lazy_star_run dot not_lt); [done | done | |].
  - intros c s Hc. by rewrite (not_lt_prefix_end c s Hc).
  - by rewrite consumed_append.
Qed.

(** The pattern after the role, on a text that goes on with
    [<|message|>]: the three optional groups are passed over. *)
Lemma match_after_role (body : string) (caps : captures) :
  all_chars dot body = true -> all_chars not_lt body = true ->
  rmatch
    (Seq (Optional (Seq (Lit "<|channel|>") (Group 2 (Plus not_lt))))
    (Seq (Optional (Seq (Plus isspace)
                      (Seq (Lit "to=") (Group 3 (Plus not_lt_bar)))))
    (Seq (Optional (Seq (Lit "<|constrain|>") (Group 4 (Plus not_lt))))
    (Seq (Lit "<|message|>")
    (Seq (Group 5 (LazyStar dot)) (Lit "<|end|>"))))))
    ("<|message|>" +:+ body +:+ "<|end|>") caps
    (fun s' caps' => Some (s', caps'))
  = Some (EmptyString, <[5 := body]> caps).
Proof.
  intros Hdot Hlt.
  rewrite rmatch_Seq, rmatch_Optional_skip by reflexivity.
  rewrite rmatch_Seq, rmatch_Optional_skip by reflexivity.
  rewrite rmatch_Seq, rmatch_Optional_skip by reflexivity.
  rewrite rmatch_Seq, rmatch_Lit_append.
  by apply match_body.
Qed.

(** One match of the whole pattern, at the head of the text of a message
    with the role written as text. *)
Lemma match_text_message (role_str body : string) :
  role_str <> EmptyString -> all_chars not_lt role_str = true ->
  all_chars dot body = true -> all_chars not_lt body = true ->
  match_here message_regex
    ("<|start|>" +:+ role_str +:+ "<|message|>" +:+ body +:+ "<|end|>")
  = Some (EmptyString, <[5 := body]> (<[1 := role_str]> ∅)).
Proof.
  intros Hne Hrole Hdot Hlt. unfold match_here, message_regex.
  rewrite rmatch_Seq, rmatch_Lit_append.
  rewrite rmatch_Seq.
  set (rest := "<|message|>" +:+ body +:+ "<|end|>").
  destruct role_str as [|c w]; [done |].
  cbn [all_chars] in Hrole. apply andb_true_iff in Hrole as [Hc Hw].
  cbn [rmatch]. rewrite append_cons, Hc.
  apply greedy_star_run; [exact Hw |].
  rewrite (greedy_star_stop not_lt rest "<" ("|message|>" +:+ body +:+ "<|end|>"))
    by reflexivity.
  cbv beta. rewrite <- (append_cons c w rest), consumed_append.
  by apply match_after_role.
Qed.

Lemma regex_matches_skip_all (r : regex) (s : string) :
  match_here r EmptyString = None ->
  regex_matches r (String.length s) s = [].
Proof.
  intros Hnone. induction s as [|c s IH]; [| exact IH].
  cbn [String.length regex_matches]. by rewrite Hnone.
Qed.

Lemma message_role_of_text (role_str : string) :
  (if String.eqb role_str "system" then System
   else if String.eqb role_str "user" then User
   else if String.eqb role_str "assistant" then Assistant
   else if String.eqb role_str "developer" then Developer
   else if String.eqb role_str "tool" then Tool
   else User)
  = role_or_user role_str.
Proof.
  unfold role_or_user, string_to_role.
  repeat (case_eqb role_str; [reflexivity |]).
  repeat (case_eqb role_str; [done |]).
  reflexivity.
Qed.

Lemma parse_harmony_format_text (role_str body : string) :
  role_str <> EmptyString -> all_chars not_lt role_str = true ->
  all_chars dot body = true -> all_chars not_lt body = true ->
  parse_harmony_format
    ("<|start|>" +:+ role_str +:+ "<|message|>" +:+ body +:+ "<|end|>")
  = [plain_message (role_or_user role_str) body].
Proof.
  intros Hne Hrole Hdot Hlt. unfold parse_harmony_format.
  set (text := "<|start|>" +:+ role_str +:+ "<|message|>" +:+ body +:+ "<|end|>").
  assert (regex_matches message_regex 0 text
          = [<[5 := body]> (<[1 := role_str]> ∅)]) as ->.
  { assert (exists s', text = String "<" s') as [s' Hs'] by (by eexists).
    rewrite Hs' at 1. cbn [regex_matches]. rewrite <- Hs'.
    unfold text at 1. rewrite match_text_message by done.
    rewrite Hs'. f_equal. cbn [String.length].
    rewrite Nat.sub_0_r. cbn [Nat.sub]. rewrite Nat.sub_0_r.
    by apply regex_matches_skip_all. }
  cbn [fmap list_fmap]. unfold message_of_match, plain_message.
  unfold captures in *.
  set (m := <[5 := body]> (<[1 := role_str]> (∅ : gmap nat string))).
  assert (m !! 1 = Some role_str) as ->
    by (unfold m; by rewrite lookup_insert_ne, lookup_insert_eq).
  assert (m !! 5 = Some body) as -> by apply lookup_insert_eq.
  assert (m !! 2 = None) as ->
    by (unfold m; by rewrite !lookup_insert_ne, lookup_empty).
  assert (m !! 3 = None) as ->
    by (unfold m; by rewrite !lookup_insert_ne, lookup_empty).
  assert (m !! 4 = None) as ->
    by (unfold m; by rewrite !lookup_insert_ne, lookup_empty).
  cbn [default]. by rewrite message_role_of_text.
Qed.

(** X23. What the bulk parser does read is the form with the role as
    plain text. For every non-empty role text without [<] and every body
    without [<] and without line ends, [parse_harmony_format] of
    [<|start|>role<|message|>body<|end|>] is the one message with that body
    as its text, no channel, recipient or content type, and the role the
    text names, or [User] when it names none. *)
Theorem parse_text_message (role_str body : string) :
  role_str <> EmptyString -> all_chars not_lt role_str = true ->
  all_chars dot body = true -> all_chars not_lt body = true ->
  parse_harmony_format
    ("<|start|>" +:+ role_str +:+ "<|message|>" +:+ body +:+ "<|end|>")
  = [plain_message (role_or_user role_str) body].
Proof. apply parse_harmony_format_text. Qed.

(** X24. End to end, the bulk parser reads the tokens of the text form:
    for an ASCII role text and an ASCII body, both without [<] and the
    body without line ends,
    [encode_with_special_tokens] of
    [<|start|>role<|message|>body<|end|>] returns and
    [parse_messages_from_completion_tokens] of its tokens is the one message
    with that role and body. *)
Theorem parse_tokens_of_text_message (role_str body : string) :
  role_str <> EmptyString -> all_chars not_lt role_str = true ->
  all_chars dot body = true -> all_chars not_lt body = true ->
  is_ascii role_str = true -> is_ascii body = true ->
  exists tokens,
    encode_with_special_tokens harmony_tokenizer
      ("<|start|>" +:+ role_str +:+ "<|message|>" +:+ body +:+ "<|end|>")
    = Ok tokens
    /\ parse_messages_from_completion_tokens load_harmony_encoding tokens None
       = Ok [plain_message (role_or_user role_str) body].
Proof.
  intros Hne Hrole Hdot Hlt Har Hab.
  set (text := "<|start|>" +:+ role_str +:+ "<|message|>" +:+ body +:+ "<|end|>").
  destruct (encode_fuel_enough harmony_tokenizer text
              (special_tokens harmony_tokenizer) (String.length text)
              harmony_specials_nonempty (le_n _)) as (tokens & n & Henc & _).
  destruct (encode_decodes harmony_tokenizer text
              (special_tokens harmony_tokenizer) tokens n
              harmony_decoder_inverts harmony_has_all_bytes
              cat_fallback_regex harmony_specials_decode Henc) as [Hdec _].
  exists tokens. unfold encode_with_special_tokens. rewrite Henc.
  split; [reflexivity |].
  unfold parse_messages_from_completion_tokens.
  change (tokenizer_ load_harmony_encoding) with harmony_tokenizer.
  unfold decode_utf8. rewrite Hdec.
  assert (is_ascii text = true) as Hascii.
  { unfold text. rewrite !is_ascii_app, Har, Hab. reflexivity. }
  rewrite (is_ascii_check text Hascii).
  unfold text. by rewrite parse_harmony_format_text.
Qed.

(** ** The tokenizer of tiktoken_ext.cpp *)

Lemma o200k_decoder_inverts : decoder_inverts load_o200k_harmony.
Proof. apply (bool_decide_unpack _). vm_compute. exact I. Qed.

Lemma o200k_has_all_bytes : has_all_bytes (encoder_ load_o200k_harmony).
Proof.
  intros c. apply (bool_decide_unpack _).
  destruct c as [[] [] [] [] [] [] [] []]; vm_compute; exact I.
Qed.

Lemma o200k_ranks :
  map_Forall (fun _ rank => (0 <= rank < 421)%Z) o200k_encoder.
Proof. apply (bool_decide_unpack _). vm_compute. exact I. Qed.

Lemma o200k_specials_nonempty : specials_nonempty load_o200k_harmony.
Proof. apply (bool_decide_unpack _). vm_compute. exact I. Qed.

Lemma o200k_specials_decode : specials_decode load_o200k_harmony.
Proof. apply (bool_decide_unpack _). vm_compute. exact I. Qed.

(** X25. The tokenizer of tiktoken_ext.cpp round-trips as well, although
    its table replaces the ranks of eighteen single bytes and holds four byte
    strings twice. [load_encoding] returns it for the tag [O200kHarmony] and
    for no other: for every other value of the enumeration it throws
    [std::invalid_argument] "Unknown encoding: " followed by the value in
    decimal. Over the tokenizer it returns, for every text and every allowed
    set, the ranks of [encode_ordinary] decode to the text byte for byte and
    are below 421, outside the reserved range, and [encode] returns ranks
    that decode to the text. *)
Theorem o200k_roundtrip (encoding : Encoding) (text : string)
    (allowed_special : gset string) :
  match load_encoding encoding with
  | Ok bpe =>
      encoding = O200kHarmony /\ bpe = load_o200k_harmony
      /\ decode_bytes bpe (encode_ordinary bpe text) = Ok text
      /\ Forall (fun r => (0 <= r < 421)%Z) (encode_ordinary bpe text)
      /\ exists tokens n,
           encode bpe text allowed_special = Ok (tokens, n)
           /\ decode_bytes bpe tokens = Ok text
  | Throw e =>
      encoding <> O200kHarmony
      /\ e = InvalidArgument ("Unknown encoding: " +:+ to_string encoding)
  | Diverges => False
  end.
Proof.
  unfold load_encoding.
  destruct (Z.eqb_spec encoding O200kHarmony) as [-> | Hne]; [| done].
  split; [reflexivity |]. split; [reflexivity |].
  split; [| split].
  - apply decode_encode_ordinary;
      [apply o200k_decoder_inverts | apply o200k_has_all_bytes
       | intros t; apply cat_fallback_regex].
  - apply Forall_forall. intros r [bytes Hb]%elem_of_encode_ordinary.
    exact (o200k_ranks _ _ Hb).
  - destruct (encode_fuel_enough load_o200k_harmony text allowed_special
                (String.length text) o200k_specials_nonempty (le_n _))
      as (tokens & n & Henc & _).
    exists tokens, n. split; [exact Henc |].
    apply (encode_decodes load_o200k_harmony text allowed_special tokens n);
      [apply o200k_decoder_inverts | apply o200k_has_all_bytes
       | apply cat_fallback_regex | apply o200k_specials_decode | exact Henc].
Qed.

(** ** utils.cpp: strings *)
Lemma prefix_split (needle s : string) :
  String.prefix needle s = true ->
  s = needle +:+ substr_from (String.length needle) s.
Proof.
  revert s. induction needle as [|c needle IH]; intros s H.
  - by rewrite append_nil_l.
  - destruct s as [|c' s]; [done |].
    change (String.prefix (String c needle) (String c' s))
      with (if ascii_dec c c' then String.prefix needle s else false) in H.
    destruct (ascii_dec c c') as [<- | ]; [| done].
    rewrite append_cons. cbn [String.length substr_from].
    by rewrite <- (IH s H).
Qed.

Lemma foldl_join_append (delimiter a b : string) (rest : list string) :
  foldl (fun result s => result +:+ (delimiter +:+ s)) (a +:+ b) rest
  = a +:+ foldl (fun result s => result +:+ (delimiter +:+ s)) b rest.
Proof.
  revert b. induction rest as [|s rest IH]; intros b; [done |].
  cbn [foldl]. by rewrite append_assoc, IH.
Qed.

Lemma join_strings_cons (x y : string) (l : list string) (delimiter : string) :
  join_strings (x :: y :: l) delimiter
  = x +:+ delimiter +:+ join_strings (y :: l) delimiter.
Proof.
  unfold join_strings. cbn [foldl].
  rewrite foldl_join_append. f_equal. apply foldl_join_append.
Qed.

Lemma prefix_length (needle s : string) :
  String.prefix needle s = true -> String.length needle <= String.length s.
Proof.
  intros H. rewrite (prefix_split needle s H), length_append. lia.
Qed.

Lemma prefix_first_bytes (needle s : string) (k : nat) :
  String.prefix needle (first_bytes k s) = true -> String.prefix needle s = true.
Proof.
  revert s k. induction needle as [|c needle IH]; intros s k H;
    [by destruct s |].
  destruct k as [|k]; [discriminate H |].
  destruct s as [|c' s]; [discriminate H |].
  cbn [first_bytes] in H.
  change (String.prefix (String c needle) (String c' (first_bytes k s)))
    with (if ascii_dec c c' then String.prefix needle (first_bytes k s)
          else false) in H.
  change (String.prefix (String c needle) (String c' s))
    with (if ascii_dec c c' then String.prefix needle s else false).
  destruct (ascii_dec c c'); [by apply (IH s k) | done].
Qed.

(** A position [find_in] returns is an occurrence, and the text before it
    holds none. *)
Lemma find_in_Some (needle s : string) (k : nat) :
  find_in needle s = Some k ->
  s = first_bytes k s +:+ needle +:+ substr_from (k + String.length needle) s
  /\ k + String.length needle <= String.length s
  /\ (needle <> EmptyString -> find_in needle (first_bytes k s) = None).
Proof.
  revert k. induction s as [|c s IH]; intros k.
  - unfold find_in. destruct (String.prefix needle EmptyString) eqn:Hp; [| done].
    intros H. injection H as <-. destruct needle as [|a needle]; [| discriminate Hp].
    split; [done |]. split; [done |]. by intros [].
  - cbn [find_in]. destruct (String.prefix needle (String c s)) eqn:Hp.
    + intros H. injection H as <-. cbn [first_bytes Nat.add].
      rewrite append_nil_l. split; [by apply prefix_split |].
      split; [by apply prefix_length |].
      intros Hne. destruct needle; done.
    + destruct (find_in needle s) as [k'|] eqn:Hf; [| done].
      intros H. injection H as <-.
      destruct (IH k' eq_refl) as (Heq & Hlen & Hnone).
      cbn [first_bytes Nat.add substr_from String.length].
      split; [by rewrite append_cons, <- Heq |].
      split; [lia |].
      intros Hne. cbn [find_in].
      destruct (String.prefix needle (String c (first_bytes k' s))) eqn:Hp'.
      * apply (prefix_first_bytes needle (String c s) (S k')) in Hp'.
        by rewrite Hp in Hp'.
      * by rewrite (Hnone Hne).
Qed.

Lemma split_loop_spec (str delimiter : string) :
  delimiter <> EmptyString ->
  forall fuel start result,
    start <= String.length str -> String.length str - start < fuel ->
    exists parts,
      split_loop fuel str delimiter start (find str delimiter start) result
      = Some (result ++ parts)
      /\ join_strings parts delimiter = substr_from start str
      /\ parts <> []
      /\ Forall (fun part => find_in delimiter part = None) parts.
Proof.
  intros Hne. induction fuel as [|fuel IH]; intros start result Hstart Hfuel;
    [lia |].
  unfold find. destruct (Nat.ltb_spec (String.length str) start); [lia |].
  destruct (find_in delimiter (substr_from start str)) as [k|] eqn:Hfind.
  - destruct (find_in_Some _ _ _ Hfind) as (Heq & Hlen & Hnone).
    rewrite length_substr_from in Hlen.
    assert (0 < String.length delimiter) by (destruct delimiter; [done | simpl; lia]).
    cbn [fmap option_fmap option_map split_loop].
    destruct (IH (start + k + String.length delimiter)
                (result ++ [substr start (start + k - start) str]))
      as (parts & Hloop & Hjoin & Hparts & Hall); [lia | lia |].
    exists (first_bytes k (substr_from start str) :: parts).
    replace (start + k - start) with k in Hloop |- * by lia.
    unfold substr in Hloop |- *. rewrite Hloop.
    split; [by rewrite <- app_assoc |].
    split.
    + destruct parts as [|y l]; [done |].
      rewrite join_strings_cons, Hjoin.
      rewrite <- Nat.add_assoc, substr_from_add. by rewrite <- Heq.
    + split; [done |]. constructor; [by apply Hnone | done].
  - cbn [fmap option_fmap option_map split_loop].
    exists [substr_from start str].
    split; [done |]. split; [done |]. split; [done |].
    by constructor.
Qed.

(** X26. [split_string] and [join_strings] are inverse to each other: for
    every string and every delimiter, [split_string] returns (its loop
    ends), it returns at least one part, joining the parts with the
    delimiter gives the string back, and, when the delimiter is not empty,
    no part contains the delimiter. *)
Theorem join_split_roundtrip (str delimiter : string) :
  exists parts,
    split_string str delimiter = Ok parts
    /\ parts <> []
    /\ join_strings parts delimiter = str
    /\ (delimiter <> EmptyString ->
        Forall (fun part => find part delimiter 0 = None) parts).
Proof.
  unfold split_string.
  destruct (String.eqb_spec delimiter EmptyString) as [-> | Hne].
  - exists [str]. split; [done |]. split; [done |]. split; [done |]. done.
  - destruct (split_loop_spec str delimiter Hne (S (String.length str)) 0 [])
      as (parts & Hloop & Hjoin & Hparts & Hall); [lia | lia |].
    exists parts. rewrite Hloop. split; [done |]. split; [done |].
    split; [done |]. intros _.
    eapply Forall_impl; [exact Hall |].
    intros part Hpart. unfold find. cbn [substr_from].
    destruct (Nat.ltb_spec (String.length part) 0); [done |].
    by rewrite Hpart.
Qed.

(** ** utils.cpp: base64 *)

Lemma base64_encode_loop_groups (data : string) :
  (forall arr result,
     (let '(i, arr', result') := base64_encode_loop data 0 arr result in
      base64_encode_tail i arr' result') = result +:+ base64_groups data)
  /\ (forall a arr result,
        (let '(i, arr', result') :=
           base64_encode_loop (String a data) 0 arr result in
         base64_encode_tail i arr' result')
        = result +:+ base64_groups (String a data))
  /\ (forall a b arr result,
        (let '(i, arr', result') :=
           base64_encode_loop (String a (String b data)) 0 arr result in
         base64_encode_tail i arr' result')
        = result +:+ base64_groups (String a (String b data))).
Proof.
  induction data as [|c data (IH0 & IH1 & IH2)].
  - split; [| split].
    + intros arr result. cbn. by rewrite append_nil_r.
    + intros a [[a0 a1] a2] result. cbn -[char_array_4 emit].
      by rewrite append_assoc.
    + intros a b [[a0 a1] a2] result. cbn -[char_array_4 emit].
      by rewrite append_assoc.
  - split; [exact (IH1 c) | split; [exact (fun a => IH2 a c) |]].
    intros a b [[a0 a1] a2] result.
    cbn [base64_encode_loop store3 Nat.eqb base64_groups].
    by rewrite IH0, append_assoc.
Qed.

Lemma base64_encode_groups (data : string) :
  base64_encode data = base64_groups data.
Proof.
  unfold base64_encode.
  rewrite (proj1 (base64_encode_loop_groups data) (0, 0, 0)%Z EmptyString).
  apply append_nil_l.
Qed.

Lemma byte_bits (c : ascii) : byte_bits_ok (byte_Z c) = true.
Proof. destruct c as [[] [] [] [] [] [] [] []]; vm_compute; reflexivity. Qed.

Lemma byte_bits_unpack (a : Z) :
  byte_bits_ok a = true ->
  (Z.shiftr (Z.land a 0xfc) 2 = a / 4
   /\ Z.shiftl (Z.land a 0x03) 4 = (a mod 4) * 16
   /\ Z.shiftr (Z.land a 0xf0) 4 = a / 16
   /\ Z.shiftl (Z.land a 0x0f) 2 = (a mod 16) * 4
   /\ Z.shiftr (Z.land a 0xc0) 6 = a / 64
   /\ Z.land a 0x3f = a mod 64
   /\ 0 <= a < 256)%Z.
Proof.
  unfold byte_bits_ok. rewrite !andb_true_iff, !Z.eqb_eq, Z.leb_le, Z.ltb_lt.
  tauto.
Qed.

(** The four indices into [chars] for three bytes given as integers. *)
Lemma char_array_4_eq (a b c : Z) :
  byte_bits_ok a = true -> byte_bits_ok b = true -> byte_bits_ok c = true ->
  char_array_4 (a, b, c)
  = [a / 4; (a mod 4) * 16 + b / 16; (b mod 16) * 4 + c / 64; c mod 64]%Z.
Proof.
  intros (A1 & A2 & A3 & A4 & A5 & A6 & A7)%byte_bits_unpack
         (B1 & B2 & B3 & B4 & B5 & B6 & B7)%byte_bits_unpack
         (C1 & C2 & C3 & C4 & C5 & C6 & C7)%byte_bits_unpack.
  unfold char_array_4. rewrite A1, A2, B3, B4, C5, C6.
  rewrite (Z.mod_small (a / 4) 256), (Z.mod_small (a mod 4 * 16 + b / 16) 256),
    (Z.mod_small (b mod 16 * 4 + c / 64) 256), (Z.mod_small (c mod 64) 256)
    by (Z.div_mod_to_equations; lia).
  reflexivity.
Qed.

Lemma Z_byte_byte_Z (c : ascii) : Z_byte (byte_Z c) = c.
Proof.
  unfold Z_byte, byte_Z, byte_val.
  rewrite Z.mod_small, Nat2Z.id by (pose proof (nat_ascii_bounded c); lia).
  apply ascii_nat_embedding.
Qed.

(** [T] inverts [chars]. *)
Lemma base64_T_chars_at (k : Z) :
  (0 <= k < 64)%Z -> base64_T !! byte_val (chars_at k) = Some k.
Proof.
  intros Hk. rewrite <- (Z2Nat.id k) by lia.
  assert (Z.to_nat k < 64)%nat as Hn by lia.
  generalize dependent (Z.to_nat k). clear. intros n Hn.
  do 64 (destruct n as [|n]; [vm_compute; reflexivity |]). lia.
Qed.

(** One iteration of the decoder on a character of the alphabet. *)
Lemma base64_decode_loop_char (k : Z) (rest : string) (val valb : Z)
    (result : string) :
  (0 <= k < 64)%Z ->
  base64_decode_loop (String (chars_at k) rest) val valb result
  = let val := int32 (val * 64 + k) in
    if (0 <=? valb + 6)%Z then
      base64_decode_loop rest val (valb + 6 - 8)
        (result +:+ single (Z_byte ((val / 2 ^ (valb + 6)) mod 256)%Z))
    else base64_decode_loop rest val (valb + 6) result.
Proof.
  intros Hk. cbn [base64_decode_loop]. rewrite (base64_T_chars_at k Hk).
  destruct (Z.eqb_spec k (-1)); [lia |].
  rewrite Z.shiftl_mul_pow2 by lia. change (2 ^ 6)%Z with 64%Z.
  cbv zeta. destruct (Z.leb_spec 0 (valb + 6)); [| reflexivity].
  rewrite Z.shiftr_div_pow2 by lia.
  change 0xFF%Z with (Z.ones 8). rewrite Z.land_ones by lia.
  reflexivity.
Qed.

Lemma base64_decode_loop_pad (rest : string) (val valb : Z) (result : string) :
  base64_decode_loop (String "=" rest) val valb result = Some result.
Proof. reflexivity. Qed.

(** The bytes the decoder takes out of [val] depend on its low bits only:
    the wrap-around of [int32] does not reach them. *)
Lemma decode_group_arith (V a b c : Z) :
  (0 <= a < 256 -> 0 <= b < 256 -> 0 <= c < 256 ->
   let v1 := int32 (V * 64 + a / 4) in
   let v2 := int32 (v1 * 64 + ((a mod 4) * 16 + b / 16)) in
   let v3 := int32 (v2 * 64 + ((b mod 16) * 4 + c / 64)) in
   let v4 := int32 (v3 * 64 + c mod 64) in
   (v2 / 2 ^ 4) mod 256 = a /\ (v3 / 2 ^ 2) mod 256 = b
   /\ (v4 / 2 ^ 0) mod 256 = c)%Z.
Proof.
  intros Ha Hb Hc. unfold int32. cbv zeta.
  change (2 ^ 4)%Z with 16%Z. change (2 ^ 2)%Z with 4%Z.
  change (2 ^ 0)%Z with 1%Z. change (2 ^ 31)%Z with 2147483648%Z.
  change (2 ^ 32)%Z with 4294967296%Z.
  repeat split; Z.div_mod_to_equations; lia.
Qed.

Lemma base64_decode_loop_group (a b c : ascii) (rest : string) (val : Z)
    (result : string) :
  exists val',
    base64_decode_loop
      (emit (char_array_4 (byte_Z a, byte_Z b, byte_Z c)) 4 +:+ rest)
      val (-8) result
    = base64_decode_loop rest val' (-8)
        (result +:+ String a (String b (String c EmptyString))).
Proof.
  pose proof (byte_bits a) as Ha. pose proof (byte_bits b) as Hb.
  pose proof (byte_bits c) as Hc.
  rewrite (char_array_4_eq _ _ _ Ha Hb Hc).
  apply byte_bits_unpack in Ha as (_ & _ & _ & _ & _ & _ & Ha).
  apply byte_bits_unpack in Hb as (_ & _ & _ & _ & _ & _ & Hb).
  apply byte_bits_unpack in Hc as (_ & _ & _ & _ & _ & _ & Hc).
  destruct (decode_group_arith val _ _ _ Ha Hb Hc) as (Ea & Eb & Ec).
  cbv zeta in Ea, Eb, Ec.
  cbn [emit take fmap list_fmap string_of_list_ascii].
  rewrite !append_cons, append_nil_l.
  rewrite base64_decode_loop_char by (Z.div_mod_to_equations; lia).
  cbv zeta. change (0 <=? -8 + 6)%Z with false. cbv iota.
  rewrite base64_decode_loop_char by (Z.div_mod_to_equations; lia).
  cbv zeta. change (0 <=? -8 + 6 + 6)%Z with true. cbv iota.
  change (-8 + 6 + 6)%Z with 4%Z. rewrite Ea. change (4 - 8)%Z with (-4)%Z.
  rewrite base64_decode_loop_char by (Z.div_mod_to_equations; lia).
  cbv zeta. change (0 <=? -4 + 6)%Z with true. cbv iota.
  change (-4 + 6)%Z with 2%Z. rewrite Eb. change (2 - 8)%Z with (-6)%Z.
  rewrite base64_decode_loop_char by (Z.div_mod_to_equations; lia).
  cbv zeta. change (0 <=? -6 + 6)%Z with true. cbv iota.
  change (-6 + 6)%Z with 0%Z. rewrite Ec. change (0 - 8)%Z with (-8)%Z.
  rewrite !Z_byte_byte_Z. eexists. f_equal.
  unfold single. by rewrite !append_assoc, !append_cons, !append_nil_l.
Qed.

Lemma base64_decode_loop_one (a : ascii) (val : Z) (result : string) :
  base64_decode_loop (emit (char_array_4 (byte_Z a, 0, 0)%Z) 2 +:+ "==")
    val (-8) result
  = Some (result +:+ single a).
Proof.
  pose proof (byte_bits a) as Ha.
  rewrite (char_array_4_eq _ 0 0 Ha eq_refl eq_refl).
  apply byte_bits_unpack in Ha as (_ & _ & _ & _ & _ & _ & Ha).
  destruct (decode_group_arith val (byte_Z a) 0 0 Ha) as (Ea & _); [lia | lia |].
  cbv zeta in Ea.
  cbn [emit take fmap list_fmap string_of_list_ascii].
  rewrite !append_cons, append_nil_l.
  rewrite base64_decode_loop_char by (Z.div_mod_to_equations; lia).
  cbv zeta. change (0 <=? -8 + 6)%Z with false. cbv iota.
  rewrite base64_decode_loop_char by (Z.div_mod_to_equations; lia).
  cbv zeta. change (0 <=? -8 + 6 + 6)%Z with true. cbv iota.
  change (-8 + 6 + 6)%Z with 4%Z. rewrite Ea.
  by rewrite base64_decode_loop_pad, Z_byte_byte_Z.
Qed.

Lemma base64_decode_loop_two (a b : ascii) (val : Z) (result : string) :
  base64_decode_loop (emit (char_array_4 (byte_Z a, byte_Z b, 0%Z)) 3 +:+ "=")
    val (-8) result
  = Some (result +:+ String a (String b EmptyString)).
Proof.
  pose proof (byte_bits a) as Ha. pose proof (byte_bits b) as Hb.
  rewrite (char_array_4_eq _ _ 0 Ha Hb eq_refl).
  apply byte_bits_unpack in Ha as (_ & _ & _ & _ & _ & _ & Ha).
  apply byte_bits_unpack in Hb as (_ & _ & _ & _ & _ & _ & Hb).
  destruct (decode_group_arith val (byte_Z a) (byte_Z b) 0 Ha Hb)
    as (Ea & Eb & _); [lia |].
  cbv zeta in Ea, Eb.
  cbn [emit take fmap list_fmap string_of_list_ascii].
  rewrite !append_cons, append_nil_l.
  rewrite base64_decode_loop_char by (Z.div_mod_to_equations; lia).
  cbv zeta. change (0 <=? -8 + 6)%Z with false. cbv iota.
  rewrite base64_decode_loop_char by (Z.div_mod_to_equations; lia).
  cbv zeta. change (0 <=? -8 + 6 + 6)%Z with true. cbv iota.
  change (-8 + 6 + 6)%Z with 4%Z. rewrite Ea. change (4 - 8)%Z with (-4)%Z.
  rewrite base64_decode_loop_char by (Z.div_mod_to_equations; lia).
  cbv zeta. change (0 <=? -4 + 6)%Z with true. cbv iota.
  change (-4 + 6)%Z with 2%Z. rewrite Eb.
  rewrite base64_decode_loop_pad, !Z_byte_byte_Z.
  unfold single. by rewrite !append_assoc, !append_cons, !append_nil_l.
Qed.

Lemma base64_decode_loop_groups (data : string) :
  (forall val result,
     base64_decode_loop (base64_groups data) val (-8) result
     = Some (result +:+ data))
  /\ (forall a val result,
        base64_decode_loop (base64_groups (String a data)) val (-8) result
        = Some (result +:+ String a data))
  /\ (forall a b val result,
        base64_decode_loop (base64_groups (String a (String b data))) val (-8)
          result
        = Some (result +:+ String a (String b data))).
Proof.
  induction data as [|c data (IH0 & IH1 & IH2)].
  - split; [| split].
    + intros val result. by rewrite append_nil_r.
    + intros a val result. apply base64_decode_loop_one.
    + intros a b val result. apply base64_decode_loop_two.
  - split; [exact (IH1 c) | split; [exact (fun a => IH2 a c) |]].
    intros a b val result. cbn [base64_groups].
    destruct (base64_decode_loop_group a b c (base64_groups data) val result)
      as [val' ->].
    rewrite IH0. f_equal.
    by rewrite append_assoc, !append_cons, append_nil_l.
Qed.

(** X27. Base64 round-trips: for every byte sequence, [base64_decode] of
    [base64_encode] of it returns it unchanged. The accumulator [val] of the
    decoder is a 32-bit [int] that is never masked and wraps around on
    inputs of six characters or more; the bytes taken out of it are not
    affected, and no character of an encoding indexes [T] out of range. *)
Theorem base64_roundtrip (data : string) :
  base64_decode (base64_encode data) = Some data.
Proof.
  rewrite base64_encode_groups. unfold base64_decode.
  rewrite (proj1 (base64_decode_loop_groups data)).
  by rewrite append_nil_l.
Qed.

Lemma length_string_of_list_ascii (l : list ascii) :
  String.length (string_of_list_ascii l) = length l.
Proof. induction l as [|c l IH]; [done |]. simpl. by rewrite IH. Qed.

Lemma length_emit (char_array_3 : Z * Z * Z) (n : nat) :
  String.length (emit (char_array_4 char_array_3) n) = Nat.min n 4.
Proof.
  destruct char_array_3 as [[a0 a1] a2]. unfold emit, char_array_4.
  rewrite length_string_of_list_ascii, length_fmap, length_take.
  reflexivity.
Qed.

Lemma length_base64_groups (data : string) :
  String.length (base64_groups data) = 4 * ((String.length data + 2) / 3)
  /\ (forall a,
        String.length (base64_groups (String a data))
        = 4 * ((String.length (String a data) + 2) / 3))
  /\ (forall a b,
        String.length (base64_groups (String a (String b data)))
        = 4 * ((String.length (String a (String b data)) + 2) / 3)).
Proof.
  induction data as [|c data (IH0 & IH1 & IH2)].
  - split; [reflexivity | split; intros; reflexivity].
  - split; [exact (IH1 c) | split; [exact (fun a => IH2 a c) |]].
    intros a b. cbn [base64_groups String.length].
    rewrite length_append, length_emit, IH0.
    replace (S (S (S (String.length data))) + 2)
      with (String.length data + 2 + 1 * 3) by lia.
    rewrite Nat.div_add by lia. cbn [Nat.min]. lia.
Qed.

(** X28. [base64_encode] writes four characters for every three bytes
    begun: the length of the encoding of [n] bytes is 4 * ceil(n / 3),
    padding included, whatever the bytes are. *)
Theorem base64_encode_length (data : string) :
  String.length (base64_encode data) = 4 * ((String.length data + 2) / 3).
Proof.
  rewrite base64_encode_groups. apply length_base64_groups.
Qed.

Lemma base64_decode_loop_stops (pre post : string) (c : ascii) :
  all_chars in_alphabet pre = true -> base64_T !! byte_val c = Some (-1)%Z ->
  forall val valb result,
    base64_decode_loop (pre +:+ String c post) val valb result
    = base64_decode_loop pre val valb result.
Proof.
  intros Hpre Hc. induction pre as [|x pre IH]; intros val valb result.
  - rewrite append_nil_l. cbn [base64_decode_loop]. by rewrite Hc.
  - rewrite append_cons. cbn [all_chars] in Hpre.
    apply andb_true_iff in Hpre as [Hx Hpre]. unfold in_alphabet in Hx.
    cbn [base64_decode_loop].
    destruct (base64_T !! byte_val x) as [t|]; [| done].
    destruct (t =? -1)%Z; [done |].
    cbv zeta. destruct (0 <=? valb + 6)%Z; by rewrite (IH Hpre).
Qed.

(** X29. [base64_decode] validates nothing: it stops at the first
    character that [T] maps to -1 (the padding [=], or any other ASCII
    character outside the alphabet) and returns what it has decoded so far;
    whatever follows that character is never looked at. *)
Theorem base64_decode_stops (pre post : string) (c : ascii) :
  all_chars in_alphabet pre = true -> base64_T !! byte_val c = Some (-1)%Z ->
  base64_decode (pre +:+ String c post) = base64_decode pre.
Proof.
  intros Hpre Hc. unfold base64_decode.
  by apply base64_decode_loop_stops.
Qed.

(** ** Special tokens *)

Lemma special_decoder_lookup (l : list (string * Rank)) (t : Rank) :
  forall d : gmap Rank string,
    is_Some (foldl (fun d e => <[e.2 := e.1]> d) d l !! t)
    <-> is_Some (d !! t) \/ t ∈ l.*2.
Proof.
  induction l as [|e l IH]; intros d.
  - cbn [foldl fmap list_fmap]. split; [by left |].
    intros [H | H]; [done | by apply elem_of_nil in H].
  - cbn [foldl]. rewrite IH, lookup_insert_is_Some, fmap_cons, elem_of_cons.
    destruct (decide (e.2 = t)) as [-> | Hne]; [tauto |].
    split.
    + intros [[H | [_ H]] | H]; [done | by left | by right; right].
    + intros [H | [H | H]]; [by left; right | done | by right].
Qed.

(** X30. [is_special_token] answers for the ranks of the special-token
    table the constructor was given, and for no other: a rank is special
    exactly when some literal of the table has it. Over the harmony
    tokenizer these are the sixteen ranks 200000 to 200015, the whole of the
    reserved range that is in use. *)
Theorem is_special_token_table (encoder : gmap string Rank)
    (special_tokens_encoder : list (string * Rank))
    (main_regex : option (string -> list string)) (token : Rank) :
  (is_special_token (CoreBPE_new encoder special_tokens_encoder main_regex)
     token = true
   <-> token ∈ special_tokens_encoder.*2)
  /\ (is_special_token harmony_tokenizer token = true
      <-> (200000 <= token <= 200015)%Z).
Proof.
  assert (forall enc specials re,
            is_special_token (CoreBPE_new enc specials re) token = true
            <-> token ∈ specials.*2) as Hgen.
  { intros enc specials re. unfold is_special_token.
    rewrite bool_decide_eq_true.
    change (special_tokens_decoder_ (CoreBPE_new enc specials re))
      with (foldl (fun d e => <[e.2 := e.1]> d) (∅ : gmap Rank string) specials).
    rewrite special_decoder_lookup, lookup_empty.
    split; [intros [[? H] | H]; [discriminate H | exact H] | by right]. }
  split; [apply Hgen |].
  unfold harmony_tokenizer. rewrite Hgen.
  change (create_harmony_special_tokens.*2)
    with [200000; 200001; 200002; 200003; 200004; 200005; 200006; 200007;
          200008; 200009; 200010; 200011; 200012; 200013; 200014;
          200015]%Z.
  rewrite !elem_of_cons, elem_of_nil. lia.
Qed.

End Encoding.

(** * Concrete instances

    The instances below take [unit] for the JSON values; the messages in
    them have no tool parameters. *)

(** C6, as stated, fails: the rendering of an assistant message with a
    recipient ends with the rank of [<|end|>] (200001), not with the rank
    of [<|call|>] (200005). *)
Lemma tool_call_ends_with_end :
  match render_message unit (fun _ => EmptyString) load_harmony_encoding
          (tool_call_message unit) None with
  | Ok tokens => last tokens = Some 200001%Z /\ last tokens <> Some 200005%Z
  | _ => False
  end.
Proof. vm_compute. split; [reflexivity | discriminate]. Qed.


(** C7, as stated, fails: in [ExpectStart] the token of the letter "a"
    raises no error; it is stored and the parser stays in [ExpectStart]. *)
Lemma expect_start_accepts_text :
  match process unit (fresh_parser unit) 97%Z with
  | Ok p => state_ unit p = ExpectStart /\ tokens_ unit p = [97%Z]
  | _ => False
  end.
Proof. vm_compute. split; reflexivity. Qed.

Lemma process_expect_start_witness :
  (97%Z = 200000%Z ->
   process unit (fresh_parser unit) 97%Z
   = Ok (set_state unit Header (push_token unit 97%Z (fresh_parser unit))))
  /\ (97%Z <> 200000%Z ->
      process unit (fresh_parser unit) 97%Z
      = let? _ := decode_utf8 harmony_tokenizer [97%Z] in
        Ok (push_token unit 97%Z (fresh_parser unit)))
  /\ state_ unit (push_token unit 97%Z (fresh_parser unit)) = ExpectStart.
Proof.
  apply (process_expect_start unit (fresh_parser unit) 97%Z); reflexivity.
Defined.

(** C9, as stated, fails: the two bytes of "é" (0xC3, 0xA9) are one valid
    code point, but fed as two tokens the first one already makes
    [process] throw; nothing is deferred. *)
Lemma split_code_point_throws :
  decode_utf8 harmony_tokenizer [195; 169]%Z
  = Ok (String (ascii_of_nat 195) (String (ascii_of_nat 169) EmptyString))
  /\ process unit (parser_in_content unit) 195%Z
     = Throw (DecodeError "Invalid UTF-8 sequence").
Proof. vm_compute. split; reflexivity. Qed.

Lemma process_delta_valid_witness :
  (forall e, decode_utf8 harmony_tokenizer [105%Z] = Throw e ->
             process unit (parser_in_content unit) 105%Z = Throw e)
  /\ (forall p', process unit (parser_in_content unit) 105%Z = Ok p' ->
                 delta_valid unit p'
                 /\ undecoded_tokens_ unit p'
                    = undecoded_tokens_ unit (parser_in_content unit)).
Proof.
  apply (process_delta_valid unit (parser_in_content unit) 105%Z);
    [reflexivity | vm_compute; reflexivity].
Defined.

Lemma finalize_resets_fields_witness :
  fields_reset unit (process_eos unit (parser_in_content unit))
  /\ exists m, messages_ unit (process_eos unit (parser_in_content unit))
               = messages_ unit (parser_in_content unit) ++ [m].
Proof.
  apply (finalize_resets_fields unit (parser_in_content unit)
           (process_eos unit (parser_in_content unit))).
  - apply step_eos.
  - vm_compute. discriminate.
Defined.

(** The harmony vocabulary gives no rank to two byte strings. *)
Lemma harmony_injective_vocabulary : injective_vocabulary create_basic_encoder.
Proof.
  intros k1 k2 r H1 H2.
  pose proof (harmony_decoder_inverts k1 r H1) as D1.
  pose proof (harmony_decoder_inverts k2 r H2) as D2.
  cbv beta in D1, D2. rewrite D1 in D2. injection D2 as ->. reflexivity.
Qed.

(** ** Instances of the further properties *)

Local Open Scope Z_scope.

Lemma byte_pair_encode_one_merge_witness :
  has_all_bytes create_basic_encoder
  /\ length (byte_pair_encode "there" create_basic_encoder)
     = if decide (byte_pair_merge create_basic_encoder "there" = [])
       then String.length "there" else (String.length "there" - 1)%nat.
Proof.
  split; [exact harmony_has_all_bytes |].
  exact (byte_pair_encode_one_merge create_basic_encoder "there"
           harmony_has_all_bytes).
Defined.

Lemma constructor_decoder_inverts_witness :
  injective_vocabulary create_basic_encoder
  /\ decoder_inverts
       (CoreBPE_new create_basic_encoder create_harmony_special_tokens None).
Proof.
  split; [exact harmony_injective_vocabulary |].
  exact (constructor_decoder_inverts create_basic_encoder
           create_harmony_special_tokens None harmony_injective_vocabulary).
Defined.

Lemma encode_ordinary_lossless_general_witness :
  cat (regex_ load_o200k_harmony "if x == 1") = "if x == 1"
  /\ decode_bytes load_o200k_harmony
       (encode_ordinary load_o200k_harmony "if x == 1") = Ok "if x == 1".
Proof.
  split; [vm_compute; reflexivity |].
  apply (encode_ordinary_lossless_general load_o200k_harmony "if x == 1");
    [exact o200k_decoder_inverts | exact o200k_has_all_bytes
     | vm_compute; reflexivity].
Defined.

Lemma decode_utf8_accepts_valid_witness :
  decode_bytes harmony_tokenizer [195; 169]
  = Ok (String (ascii_of_nat 195) (String (ascii_of_nat 169) EmptyString))
  /\ decode_utf8 harmony_tokenizer [195; 169]
     = Ok (String (ascii_of_nat 195) (String (ascii_of_nat 169) EmptyString)).
Proof.
  split; [vm_compute; reflexivity |].
  apply (decode_utf8_accepts_valid harmony_tokenizer [195; 169]
           (String (ascii_of_nat 195) (String (ascii_of_nat 169) EmptyString)));
    vm_compute; reflexivity.
Defined.

Lemma encode_terminates_witness :
  exists tokens last_piece_token_len,
    encode harmony_tokenizer "<|start|>hi" ∅ = Ok (tokens, last_piece_token_len)
    /\ encode_fuel 20 harmony_tokenizer "<|start|>hi" ∅
       = Ok (tokens, last_piece_token_len).
Proof.
  apply (encode_terminates harmony_tokenizer "<|start|>hi" ∅ 20);
    [exact harmony_specials_nonempty | vm_compute; lia].
Defined.

Lemma encode_disjoint_allowed_is_ordinary_witness :
  encode harmony_tokenizer "<|start|>hi" {["<|nope|>"]}
  = Ok (encode_ordinary harmony_tokenizer "<|start|>hi",
        length (encode_ordinary harmony_tokenizer "<|start|>hi")).
Proof.
  apply (encode_disjoint_allowed_is_ordinary harmony_tokenizer "<|start|>hi"
           {["<|nope|>"]}).
  - apply non_empty_singleton_L.
  - apply (bool_decide_unpack _). vm_compute. exact I.
  - vm_compute. reflexivity.
Defined.

Lemma process_all_tokens_witness :
  process_all unit (parser_in_content unit)
    [33; 200001; 200000; 200012; 200002; 79; 75]
  = Ok (parser_after_second_start unit)
  /\ tokens_ unit (parser_after_second_start unit)
     = (tokens_ unit (parser_in_content unit)
        ++ [33; 200001; 200000; 200012; 200002; 79; 75])%list.
Proof.
  assert (process_all unit (parser_in_content unit)
            [33; 200001; 200000; 200012; 200002; 79; 75]
          = Ok (parser_after_second_start unit)) as Hp by reflexivity.
  split; [exact Hp |].
  exact (process_all_tokens unit
           [33; 200001; 200000; 200012; 200002; 79; 75]
           (parser_in_content unit) (parser_after_second_start unit) Hp).
Defined.

Lemma stream_never_captures_header_witness :
  process_all unit (StreamableParser_new unit load_harmony_encoding None)
    [200000; 200013; 200003; 102; 258; 97; 108; 200002; 72; 105; 200001;
     200000; 200012] = Ok (parser_after_channel_header unit)
  /\ no_header_fields unit (parser_after_channel_header unit)
  /\ no_header_fields unit (process_eos unit (parser_after_channel_header unit)).
Proof.
  assert (process_all unit
            (StreamableParser_new unit load_harmony_encoding None)
            [200000; 200013; 200003; 102; 258; 97; 108; 200002; 72; 105;
             200001; 200000; 200012] = Ok (parser_after_channel_header unit))
    as Hp by reflexivity.
  split; [exact Hp |].
  exact (stream_never_captures_header unit load_harmony_encoding None
           [200000; 200013; 200003; 102; 258; 97; 108; 200002; 72; 105;
            200001; 200000; 200012] (parser_after_channel_header unit) Hp).
Defined.


Lemma stream_of_rendered_plain_message_witness :
  exists tokens p,
    render_message unit (fun _ => EmptyString) load_harmony_encoding
      (plain_message unit User "Hello") None = Ok tokens
    /\ process_all unit (StreamableParser_new unit load_harmony_encoding None)
         tokens = Ok p
    /\ messages_ unit p = [plain_message unit User "Hello"]
    /\ state_ unit p = ExpectStart /\ fields_reset unit p.
Proof.
  apply (stream_of_rendered_plain_message unit (fun _ => EmptyString) User
           "Hello" None None).
  reflexivity.
Defined.

Lemma stream_of_rendered_non_ascii_throws_witness :
  exists tokens,
    render_message unit (fun _ => EmptyString) load_harmony_encoding
      (plain_message unit User
         (String (ascii_of_nat 195) (String (ascii_of_nat 169) EmptyString)))
      None = Ok tokens
    /\ process_all unit (StreamableParser_new unit load_harmony_encoding None)
         tokens = Throw (DecodeError "Invalid UTF-8 sequence").
Proof.
  apply (stream_of_rendered_non_ascii_throws unit (fun _ => EmptyString) User
           (String (ascii_of_nat 195) (String (ascii_of_nat 169) EmptyString))
           None None).
  reflexivity.
Defined.

Lemma parse_text_message_witness :
  parse_harmony_format unit "<|start|>user<|message|>Hello world<|end|>"
  = [plain_message unit User "Hello world"].
Proof.
  apply (parse_text_message unit "user" "Hello world");
    [discriminate | reflexivity | reflexivity | reflexivity].
Defined.

Lemma parse_tokens_of_text_message_witness :
  exists tokens,
    encode_with_special_tokens harmony_tokenizer
      "<|start|>assistant<|message|>Hi there<|end|>" = Ok tokens
    /\ parse_messages_from_completion_tokens unit load_harmony_encoding tokens
         None
       = Ok [plain_message unit Assistant "Hi there"].
Proof.
  apply (parse_tokens_of_text_message unit "assistant" "Hi there");
    [discriminate | reflexivity | reflexivity | reflexivity | reflexivity
     | reflexivity].
Defined.

Lemma base64_decode_stops_witness :
  all_chars in_alphabet "TQ" = true
  /\ base64_decode "TQ==, and more" = base64_decode "TQ".
Proof.
  split; [reflexivity |].
  apply (base64_decode_stops "TQ" "=, and more" "="); reflexivity.
Defined.
